(** * graphql-remote-delegation: the remote executor and the batch callbacks

    Shallow embedding of [lib/make_remote_executor.js] and of the two
    callbacks the gateway hands to [batchDelegateToSchema] for the
    [StateMeta.batch] field: [valuesFromResults] and the
    [resultTransformer] of its [TransformQuery].

    JavaScript values are the JSON values a backend can answer with, plus
    [undefined]; exceptions are an explicit result type.  The callbacks
    are given twice: over plain values, where the statements about slots
    and errors are made, and over a store of objects passed by reference,
    where what a call allocates and what it leaves alone is visible; the
    two are shown to agree. *)

From Stdlib Require Import ZArith Ascii String.
From stdpp Require Import base list strings pretty.

Set Warnings "-register-all".
Local Open Scope string_scope.
Local Open Scope Z_scope.
Local Open Scope list_scope.

(** ** JavaScript values *)

Module JS.

(** Numbers are the integer doubles (JSON integers below 2^53).  An
    object is its own properties, with distinct names, in insertion order;
    the rule that enumerates index-like names first is not modelled (the
    sources spread only the [{ edges: [a] }] objects they build). *)
Inductive value : Type :=
  | VUndefined
  | VNull
  | VBool (b : bool)
  | VNum (n : Z)
  | VStr (s : string)
  | VArr (elems : list value)
  | VObj (props : list (string * value)).

(** What a [throw] carries.  The messages of engine-raised errors differ
    between engines and are not kept. *)
Inductive exn : Type :=
  | TypeError
  | SyntaxError
  | Error (message : string)
  | FetchError (reason : string).

(** Outcome of evaluating an expression or running a function body. *)
Inductive res (A : Type) : Type :=
  | Ok (a : A)
  | Throw (e : exn).
Arguments Ok {A} a.
Arguments Throw {A} e.

#[export] Instance res_ret : MRet res := fun A a => Ok a.
#[export] Instance res_bind : MBind res := fun A B f m =>
  match m with
  | Ok a => f a
  | Throw e => Throw e
  end.
#[export] Instance res_fmap : FMap res := fun A B f m =>
  match m with
  | Ok a => Ok (f a)
  | Throw e => Throw e
  end.

Definition is_throw {A} (r : res A) : bool :=
  match r with Ok _ => false | Throw _ => true end.

(** [ToBoolean]. *)
Definition truthy (v : value) : bool :=
  match v with
  | VUndefined | VNull => false
  | VBool b => b
  | VNum n => negb (n =? 0)
  | VStr s => negb (String.eqb s "")
  | VArr _ | VObj _ => true
  end.

Definition nullish (v : value) : bool :=
  match v with
  | VUndefined | VNull => true
  | _ => false
  end.

(** Own data property of an object literal or parsed JSON object. *)
Fixpoint obj_lookup {A} (name : string) (props : list (string * A)) : option A :=
  match props with
  | [] => None
  | (k, v) :: rest => if String.eqb k name then Some v else obj_lookup name rest
  end.

(** [o[name] = v] on an object: an existing property keeps its place. *)
Fixpoint obj_set {A} (name : string) (v : A) (props : list (string * A))
  : list (string * A) :=
  match props with
  | [] => [(name, v)]
  | (k, w) :: rest =>
      if String.eqb k name then (k, v) :: rest else (k, w) :: obj_set name v rest
  end.

Definition index_name (i : nat) : string := pretty i.

Definition char_at (s : string) (i : nat) : value :=
  match String.get i s with
  | Some c => VStr (String c EmptyString)
  | None => VUndefined
  end.

(** [v.name] for a data property name (one that no prototype defines:
    the sources read [edges], [nodes], [node], [stateFipsCode] and
    [authHeader]), and [length]. *)
Definition get_prop (v : value) (name : string) : res value :=
  match v with
  | VUndefined | VNull => Throw TypeError
  | VObj props => Ok (default VUndefined (obj_lookup name props))
  | VArr elems =>
      Ok (if String.eqb name "length" then VNum (Z.of_nat (length elems)) else VUndefined)
  | VStr s =>
      Ok (if String.eqb name "length" then VNum (Z.of_nat (String.length s)) else VUndefined)
  | VBool _ | VNum _ => Ok VUndefined
  end.

(** [v[i]] for an array index [i]. *)
Definition get_index (v : value) (i : nat) : res value :=
  match v with
  | VUndefined | VNull => Throw TypeError
  | VArr elems => Ok (default VUndefined (elems !! i))
  | VStr s => Ok (char_at s i)
  | VObj props => Ok (default VUndefined (obj_lookup (index_name i) props))
  | VBool _ | VNum _ => Ok VUndefined
  end.

(** Own enumerable properties, as object spread [{...src}] reads them. *)
Definition own_props (src : value) : list (string * value) :=
  match src with
  | VObj props => props
  | VArr elems => imap (fun i v => (index_name i, v)) elems
  | VStr s =>
      imap (fun i c => (index_name i, VStr (String c EmptyString)))
           (list_ascii_of_string s)
  | _ => []
  end.

(** [{...target, ...src}] where [target] holds the properties written so
    far in the literal. *)
Definition obj_spread (target : list (string * value)) (src : value)
  : list (string * value) :=
  fold_left (fun acc kv => obj_set kv.1 kv.2 acc) (own_props src) target.

(** *** Array methods *)

(** [Array.prototype.find]: the first element the predicate accepts, else
    [undefined]; elements after it are not visited. *)
Fixpoint array_find (predicate : value -> res bool) (elems : list value) : res value :=
  match elems with
  | [] => Ok VUndefined
  | x :: rest =>
      b ← predicate x;
      if b : bool then Ok x else array_find predicate rest
  end.

(** [Array.prototype.map] with a callback that may throw; the callback
    also receives the index. *)
Fixpoint array_mapi_from {A B} (f : A -> nat -> res B) (i : nat) (elems : list A)
  : res (list B) :=
  match elems with
  | [] => Ok []
  | x :: rest =>
      y ← f x i;
      ys ← array_mapi_from f (S i) rest;
      Ok (y :: ys)
  end.

Definition array_mapi {A B} (f : A -> nat -> res B) (elems : list A) : res (list B) :=
  array_mapi_from f 0 elems.

Definition array_map {A B} (f : A -> res B) (elems : list A) : res (list B) :=
  array_mapi (fun x _ => f x) elems.

(** [v.find(predicate)] on an arbitrary value: only an array has the
    method. *)
Definition call_find (v : value) (predicate : value -> res bool) : res value :=
  match v with
  | VArr elems => array_find predicate elems
  | _ => Throw TypeError
  end.

(** [v.map(f)] on an arbitrary value. *)
Definition call_mapi (v : value) (f : value -> nat -> res value) : res value :=
  match v with
  | VArr elems => VArr <$> array_mapi f elems
  | _ => Throw TypeError
  end.

(** [v?.name] *)
Definition optional_get (v : value) (name : string) : res value :=
  if nullish v then Ok VUndefined else get_prop v name.

(** [v?.map(f)] *)
Definition optional_map (v : value) (f : value -> value) : res value :=
  if nullish v then Ok VUndefined else call_mapi v (fun a _ => Ok (f a)).

(** *** Loose equality [==] *)

Definition is_space (c : ascii) : bool :=
  let n := nat_of_ascii c in
  ((9 <=? n) && (n <=? 13) || (n =? 32))%nat.

Fixpoint trim_left (s : string) : string :=
  match s with
  | String c rest => if is_space c then trim_left rest else s
  | EmptyString => EmptyString
  end.

Definition trim (s : string) : string :=
  String.rev (trim_left (String.rev (trim_left s))).

Definition digit_of (c : ascii) : option Z :=
  let n := nat_of_ascii c in
  if ((48 <=? n) && (n <=? 57))%nat then Some (Z.of_nat n - 48) else None.

Fixpoint digits_value (acc : Z) (s : string) : option Z :=
  match s with
  | EmptyString => Some acc
  | String c rest =>
      match digit_of c with
      | Some d => digits_value (10 * acc + d) rest
      | None => None
      end
  end.

Definition unsigned_value (s : string) : option Z :=
  match s with
  | EmptyString => None
  | _ => digits_value 0 s
  end.

(** [ToNumber] of a string, on decimal integer literals: surrounding white
    space is dropped, the empty string is 0, a sign may lead the digits.
    [None] stands for [NaN]; literals with a fraction, an exponent or a
    radix prefix are not interpreted. *)
Definition string_to_number (s : string) : option Z :=
  match trim s with
  | EmptyString => Some 0
  | String "+" rest => unsigned_value rest
  | String "-" rest => Z.opp <$> unsigned_value rest
  | t => unsigned_value t
  end.

Definition join (sep : string) (parts : list string) : string :=
  match parts with
  | [] => ""
  | p :: ps => fold_left (fun acc q => acc +:+ sep +:+ q) ps p
  end.

(** [ToString]; an array prints as [Array.prototype.join] does. *)
Fixpoint to_string (v : value) : string :=
  match v with
  | VUndefined => "undefined"
  | VNull => "null"
  | VBool b => if b then "true" else "false"
  | VNum n => pretty n
  | VStr s => s
  | VArr elems =>
      join "," (map (fun x => if nullish x then "" else to_string x) elems)
  | VObj _ => "[object Object]"
  end.

Definition is_object (v : value) : bool :=
  match v with
  | VArr _ | VObj _ => true
  | _ => false
  end.

(** [ToPrimitive] for objects and [ToNumber] for booleans: the two
    conversions [==] applies to an operand before comparing. *)
Definition loose_operand (v : value) : value :=
  match v with
  | VBool b => VNum (if b then 1 else 0)
  | VArr _ | VObj _ => VStr (to_string v)
  | _ => v
  end.

Definition number_eq_string (n : Z) (s : string) : bool :=
  match string_to_number s with
  | Some m => n =? m
  | None => false
  end.

(** [x == y].  Two objects are equal only when they are the same object;
    the operands compared here come from two separately parsed responses,
    so two objects never are. *)
Definition loose_eq (x y : value) : bool :=
  if is_object x && is_object y then false
  else if nullish x || nullish y then nullish x && nullish y
  else
    match loose_operand x, loose_operand y with
    | VNum a, VNum b => a =? b
    | VStr a, VStr b => String.eqb a b
    | VNum a, VStr s | VStr s, VNum a => number_eq_string a s
    | _, _ => false
    end.

End JS.

Import JS.

(** ** lib/make_remote_executor.js *)

Module Executor.

Record http_request : Type := HttpRequest {
  req_url : string;
  req_method : string;
  req_headers : list (string * value);
  req_body : string;
}.

(** What [fetch] and then [fetchResult.json()] do for one request: the
    promise of [fetch] rejects, or it resolves to a response with a
    status whose body parses as JSON or makes [json()] throw. *)
Inductive http_outcome : Type :=
  | Rejected (e : exn)
  | Responded (status : Z) (json : res value).

(** [document] is a query string or a parsed query. *)
Inductive document (ast : Type) : Type :=
  | DocText (text : string)
  | DocAst (d : ast).
Arguments DocText {ast} text.
Arguments DocAst {ast} d.

Section MakeRemoteExecutor.
Context {ast : Type}.
(** [print] of the graphql package, [JSON.stringify] and the network. *)
Variable print : ast -> string.
Variable JSON_stringify : value -> string.
Variable fetch : http_request -> http_outcome.

(** The function [makeRemoteExecutor(url)] returns, applied to
    [{ document, variables, context }]: the requests it sent, in order,
    and how its promise settles ([Ok] resolved, [Throw] rejected).  The
    [console.log] lines write to the console only and are left out. *)
Definition makeRemoteExecutor (url : string)
    (doc : document ast) (variables context : value)
  : list http_request * res value :=
  let query := match doc with DocText text => text | DocAst d => print d end in
  match get_prop context "authHeader" with
  | Throw e => ([], Throw e)
  | Ok auth =>
      let request :=
        {| req_url := url;
           req_method := "POST";
           req_headers := [("Authorization", auth);
                           ("Content-Type", VStr "application/json")];
           req_body := JSON_stringify
                         (VObj [("query", VStr query); ("variables", variables)]) |} in
      ([request],
       match fetch request with
       | Rejected e => Throw e
       | Responded _ json => json
       end)
  end.

End MakeRemoteExecutor.

End Executor.

(** ** The [StateMeta.batch] resolver's callbacks (index.js) *)

Module Batch.

Definition missing_key_edges : string := "Need stateFipsCode in Query for edges".
Definition missing_key_nodes : string := "Need stateFipsCode in Query for nodes".
Definition missing_shape : string := "Query needs nodes or edges".

(** [element.edges[0].node.stateFipsCode] *)
Definition edge_key (edges : value) : res value :=
  e0 ← get_index edges 0;
  node ← get_prop e0 "node";
  get_prop node "stateFipsCode".

(** [element.nodes[0].stateFipsCode] *)
Definition node_key (nodes : value) : res value :=
  n0 ← get_index nodes 0;
  get_prop n0 "stateFipsCode".

(** The predicate given to [results.find] for one key. *)
Definition matches_key (key element : value) : res bool :=
  edges ← get_prop element "edges";
  if truthy edges then
    k ← edge_key edges;
    if negb (truthy k) then Throw (Error missing_key_edges)
    else k' ← edge_key edges; Ok (loose_eq k' key)
  else
    nodes ← get_prop element "nodes";
    if truthy nodes then
      k ← node_key nodes;
      if negb (truthy k) then Throw (Error missing_key_nodes)
      else k' ← node_key nodes; Ok (loose_eq k' key)
    else Throw (Error missing_shape).

(** [valuesFromResults: (results, keys) => keys.map(key => results.find(...))] *)
Definition valuesFromResults (results : value) (keys : list value) : res (list value) :=
  array_map (fun key => call_find results (matches_key key)) keys.

(** [resultTransformer: (result) => ...] of the [TransformQuery]. *)
Definition resultTransformer (result : value) : res value :=
  e ← optional_get result "edges";
  edges ← optional_map e (fun a => VObj [("edges", VArr [a])]);
  n ← optional_get result "nodes";
  nodes ← optional_map n (fun a => VObj [("nodes", VArr [a])]);
  if truthy nodes && truthy edges then
    call_mapi nodes (fun n index =>
      n_nodes ← get_prop n "nodes";
      edge ← get_index edges index;
      Ok (VObj (obj_spread [("nodes", n_nodes)] edge)))
  else Ok (if truthy nodes then nodes else edges).

(** [resultTransformer] followed by [valuesFromResults]: the batch loader
    of graphql-tools hands the transformed result on as [results]. *)
Definition batch_values (response : value) (keys : list value) : res (list value) :=
  results ← resultTransformer response;
  valuesFromResults results keys.

End Batch.

(** ** The callbacks over a store of objects

    The same two callbacks with objects and arrays held in a store and
    passed by reference, so that what a call allocates and what it leaves
    untouched can be told apart. *)

Module Store.

(** A value as a variable holds it: a primitive, or a reference. *)
Inductive sval : Type :=
  | SUndefined
  | SNull
  | SBool (b : bool)
  | SNum (n : Z)
  | SStr (s : string)
  | SRef (l : nat).

(** An allocated array or object. *)
Inductive cell : Type :=
  | CArr (elems : list sval)
  | CObj (props : list (string * sval)).

(** Location [l] is the [l]-th cell; allocation appends. *)
Abbreviation store := (list cell).

(** The JSON value a stored value stands for, read to depth [fuel]. *)
Fixpoint reify (fuel : nat) (h : store) (v : sval) : value :=
  match v with
  | SUndefined => VUndefined
  | SNull => VNull
  | SBool b => VBool b
  | SNum n => VNum n
  | SStr s => VStr s
  | SRef l =>
      match fuel with
      | O => VUndefined
      | S fuel' =>
          match h !! l with
          | Some (CArr elems) => VArr (reify fuel' h <$> elems)
          | Some (CObj props) =>
              VObj ((fun kv => (kv.1, reify fuel' h kv.2)) <$> props)
          | None => VUndefined
          end
      end
  end.

Definition snapshot (h : store) (v : sval) : value := reify (length h) h v.

(** Computations that may allocate and may throw. *)
Definition M (A : Type) : Type := store -> store * res A.

#[export] Instance M_ret : MRet M := fun A a h => (h, Ok a).
#[export] Instance M_bind : MBind M := fun A B f m h =>
  match m h with
  | (h', Ok a) => f a h'
  | (h', Throw e) => (h', Throw e)
  end.

Definition alloc (c : cell) : M sval := fun h => (h ++ [c], Ok (SRef (length h))).

(** A step that only reads the store. *)
Definition read {A} (f : store -> res A) : M A := fun h => (h, f h).

Definition truthy (v : sval) : bool :=
  match v with
  | SUndefined | SNull => false
  | SBool b => b
  | SNum n => negb (n =? 0)
  | SStr s => negb (String.eqb s "")
  | SRef _ => true
  end.

Definition nullish (v : sval) : bool :=
  match v with
  | SUndefined | SNull => true
  | _ => false
  end.

Definition char_at (s : string) (i : nat) : sval :=
  match String.get i s with
  | Some c => SStr (String c EmptyString)
  | None => SUndefined
  end.

(** Property reads go through the store; a reference always points into
    it, the [None] cases are there for totality. *)
Definition get_prop (h : store) (v : sval) (name : string) : res sval :=
  match v with
  | SUndefined | SNull => Throw TypeError
  | SRef l =>
      match h !! l with
      | Some (CObj props) => Ok (default SUndefined (obj_lookup name props))
      | Some (CArr elems) =>
          Ok (if String.eqb name "length" then SNum (Z.of_nat (length elems))
              else SUndefined)
      | None => Throw TypeError
      end
  | SStr s =>
      Ok (if String.eqb name "length" then SNum (Z.of_nat (String.length s))
          else SUndefined)
  | SBool _ | SNum _ => Ok SUndefined
  end.

Definition get_index (h : store) (v : sval) (i : nat) : res sval :=
  match v with
  | SUndefined | SNull => Throw TypeError
  | SRef l =>
      match h !! l with
      | Some (CArr elems) => Ok (default SUndefined (elems !! i))
      | Some (CObj props) => Ok (default SUndefined (obj_lookup (index_name i) props))
      | None => Throw TypeError
      end
  | SStr s => Ok (char_at s i)
  | SBool _ | SNum _ => Ok SUndefined
  end.

Definition own_props (h : store) (src : sval) : list (string * sval) :=
  match src with
  | SRef l =>
      match h !! l with
      | Some (CObj props) => props
      | Some (CArr elems) => imap (fun i v => (index_name i, v)) elems
      | None => []
      end
  | SStr s =>
      imap (fun i c => (index_name i, SStr (String c EmptyString)))
           (list_ascii_of_string s)
  | _ => []
  end.

Definition obj_spread (h : store) (target : list (string * sval)) (src : sval)
  : list (string * sval) :=
  fold_left (fun acc kv => obj_set kv.1 kv.2 acc) (own_props h src) target.

(** [x == y]: two references are equal when they are the same location;
    otherwise the operands are converted as their contents say. *)
Definition loose_eq (h : store) (x y : sval) : bool :=
  match x, y with
  | SRef a, SRef b => bool_decide (a = b)
  | _, _ => JS.loose_eq (snapshot h x) (snapshot h y)
  end.

Fixpoint array_find (predicate : sval -> res bool) (elems : list sval) : res sval :=
  match elems with
  | [] => Ok SUndefined
  | x :: rest =>
      b ← predicate x;
      if b : bool then Ok x else array_find predicate rest
  end.

Definition call_find (h : store) (v : sval) (predicate : sval -> res bool) : res sval :=
  match v with
  | SRef l =>
      match h !! l with
      | Some (CArr elems) => array_find predicate elems
      | _ => Throw TypeError
      end
  | _ => Throw TypeError
  end.

Fixpoint array_mapi_from {A B} (f : A -> nat -> M B) (i : nat) (elems : list A)
  : M (list B) :=
  match elems with
  | [] => mret []
  | x :: rest =>
      y ← f x i;
      ys ← array_mapi_from f (S i) rest;
      mret (y :: ys)
  end.

(** [v.map(f)]: the elements are mapped in order and the new array is
    allocated; [f] may allocate too. *)
Definition call_mapi (v : sval) (f : sval -> nat -> M sval) : M sval :=
  fun h =>
    match v with
    | SRef l =>
        match h !! l with
        | Some (CArr elems) =>
            (vs ← array_mapi_from f 0 elems; alloc (CArr vs)) h
        | _ => (h, Throw TypeError)
        end
    | _ => (h, Throw TypeError)
    end.

Definition optional_get (h : store) (v : sval) (name : string) : res sval :=
  if nullish v then Ok SUndefined else get_prop h v name.

Definition optional_map (v : sval) (f : sval -> M sval) : M sval :=
  if nullish v then mret SUndefined else call_mapi v (fun a _ => f a).

Definition edge_key (h : store) (edges : sval) : res sval :=
  e0 ← get_index h edges 0;
  node ← get_prop h e0 "node";
  get_prop h node "stateFipsCode".

Definition node_key (h : store) (nodes : sval) : res sval :=
  n0 ← get_index h nodes 0;
  get_prop h n0 "stateFipsCode".

Definition matches_key (h : store) (key element : sval) : res bool :=
  edges ← get_prop h element "edges";
  if truthy edges then
    k ← edge_key h edges;
    if negb (truthy k) then Throw (Error Batch.missing_key_edges)
    else k' ← edge_key h edges; Ok (loose_eq h k' key)
  else
    nodes ← get_prop h element "nodes";
    if truthy nodes then
      k ← node_key h nodes;
      if negb (truthy k) then Throw (Error Batch.missing_key_nodes)
      else k' ← node_key h nodes; Ok (loose_eq h k' key)
    else Throw (Error Batch.missing_shape).

(** [valuesFromResults]: the searches only read; the new array holds
    references to the groups found. *)
Definition valuesFromResults (results : sval) (keys : list sval) : M sval :=
  newresult ← read (fun h =>
    array_map (fun key => call_find h results (matches_key h key)) keys);
  alloc (CArr newresult).

(** [resultTransformer]: every [{ edges: [a] }], [{ nodes: [a] }] and
    combined group is a fresh object, and so is every array [map]
    returns. *)
Definition resultTransformer (result : sval) : M sval :=
  e ← read (fun h => optional_get h result "edges");
  edges ← optional_map e (fun a =>
    arr ← alloc (CArr [a]); alloc (CObj [("edges", arr)]));
  n ← read (fun h => optional_get h result "nodes");
  nodes ← optional_map n (fun a =>
    arr ← alloc (CArr [a]); alloc (CObj [("nodes", arr)]));
  if truthy nodes && truthy edges then
    call_mapi nodes (fun n index =>
      n_nodes ← read (fun h => get_prop h n "nodes");
      edge ← read (fun h => get_index h edges index);
      props ← read (fun h => Ok (obj_spread h [("nodes", n_nodes)] edge));
      alloc (CObj props))
  else mret (if truthy nodes then nodes else edges).

Definition batch_values (response : sval) (keys : list sval) : M sval :=
  results ← resultTransformer response;
  valuesFromResults results keys.

(** [JSON.parse]: a value is laid out in the store, parts before the
    whole. *)
Fixpoint load (v : value) (h : store) : store * sval :=
  match v with
  | VUndefined => (h, SUndefined)
  | VNull => (h, SNull)
  | VBool b => (h, SBool b)
  | VNum n => (h, SNum n)
  | VStr s => (h, SStr s)
  | VArr elems =>
      let '(h', vs) :=
        (fix go (l : list value) (h : store) : store * list sval :=
           match l with
           | [] => (h, [])
           | x :: rest =>
               let '(h1, a) := load x h in
               let '(h2, r) := go rest h1 in
               (h2, a :: r)
           end) elems h in
      (h' ++ [CArr vs], SRef (length h'))
  | VObj props =>
      let '(h', ps) :=
        (fix go (l : list (string * value)) (h : store)
           : store * list (string * sval) :=
           match l with
           | [] => (h, [])
           | (k, x) :: rest =>
               let '(h1, a) := load x h in
               let '(h2, r) := go rest h1 in
               (h2, (k, a) :: r)
           end) props h in
      (h' ++ [CObj ps], SRef (length h'))
  end.

End Store.

(** ** The rest of index.js: the key filter and the request context *)

Module Gateway.

(** [argsFromKeys: (stateFipsCode) => ({ filter: { stateFipsCode: { in: stateFipsCode } } })] *)
Definition argsFromKeys (stateFipsCode : value) : value :=
  VObj [("filter", VObj [("stateFipsCode", VObj [("in", stateFipsCode)])])].

(** [queryTransformer: (subtree) => subtree] *)
Definition queryTransformer {A} (subtree : A) : A := subtree.

(** [context: { authHeader: req.headers.authorization }], which the
    function given to [graphqlHTTP] builds for every client request. *)
Definition request_context (req : value) : res value :=
  headers ← get_prop req "headers";
  authorization ← get_prop headers "authorization";
  Ok (VObj [("authHeader", authorization)]).

End Gateway.

(** ** Vocabulary of the statements *)

Import Batch.
Import Executor.

(** The part of [matches_key] that does not depend on the key: the key
    field the predicate reads off a group, or the error it throws. *)
Definition group_key (element : value) : res value :=
  edges ← get_prop element "edges";
  if truthy edges then
    k ← edge_key edges;
    if truthy k then Ok k else Throw (Error missing_key_edges)
  else
    nodes ← get_prop element "nodes";
    if truthy nodes then
      k ← node_key nodes;
      if truthy k then Ok k else Throw (Error missing_key_nodes)
    else Throw (Error missing_shape).

(** The predicate accepts the group for this key. *)
Definition is_match (key element : value) : bool :=
  match matches_key key element with
  | Ok true => true
  | _ => false
  end.

(** A group the predicate can read a key from. *)
Definition carries_key (g : value) : Prop := exists k, group_key g = Ok k.

(** [correlated key results v]: [v] is the first group of [results] whose
    key field [==] [key], or [undefined] when no group has it. *)
Inductive correlated (key : value) : list value -> value -> Prop :=
  | correlated_none results :
      Forall (fun g => exists k, group_key g = Ok k /\ loose_eq k key = false) results ->
      correlated key results VUndefined
  | correlated_first pre g post k :
      Forall (fun g' => exists k', group_key g' = Ok k' /\ loose_eq k' key = false) pre ->
      group_key g = Ok k -> loose_eq k key = true ->
      correlated key (pre ++ g :: post) g.

(** The groups of [results] that answer [key]. *)
Definition matching (key : value) (results : list value) : list value :=
  filter (fun g => is_match key g) results.

(** Every key of [keys] is answered by at most one group. *)
Definition unambiguous (results keys : list value) : Prop :=
  Forall (fun key => (length (matching key results) <= 1)%nat) keys.

(** One normalised group holding both shapes of the same position. *)
Definition both_shapes (n e : value) : value :=
  VObj [("nodes", VArr [n]); ("edges", VArr [e])].

(** [examines results keys key g]: in the run of
    [valuesFromResults results keys] the search for [key] reaches the
    group [g]: the keys before [key] have been mapped, and no group before
    [g] answers [key]. *)
Definition examines (results keys : list value) (key g : value) : Prop :=
  exists ks1 ks2 pre post vs1,
    keys = ks1 ++ key :: ks2 /\
    results = pre ++ g :: post /\
    valuesFromResults (VArr results) ks1 = Ok vs1 /\
    Forall (fun x => matches_key key x = Ok false) pre.



Module StoreSpec.
Import Store.

Definition below (n : nat) (v : sval) : Prop :=
  match v with
  | SRef l => (l < n)%nat
  | _ => True
  end.

Definition above (n : nat) (v : sval) : Prop :=
  match v with
  | SRef l => (n <= l)%nat
  | _ => True
  end.

Definition cell_values (c : cell) : list sval :=
  match c with
  | CArr elems => elems
  | CObj props => props.*2
  end.

(** Every cell refers to cells allocated before it. *)
Definition well_formed (h : store) : Prop :=
  forall l c, h !! l = Some c -> Forall (below l) (cell_values c).

(** The cells from [lo] on refer to no cell before [lo]: what was parsed
    or allocated from [lo] on shares nothing with what came before. *)
Definition self_contained (lo : nat) (h : store) : Prop :=
  forall l c, (lo <= l)%nat -> h !! l = Some c -> Forall (above lo) (cell_values c).

Definition inv (lo : nat) (h : store) : Prop :=
  well_formed h /\ self_contained lo h /\ (lo <= length h)%nat.

Definition closed (h : store) (v : sval) : Prop := below (length h) v.

(** A value of the part of the store that starts at [lo]. *)
Definition within (lo : nat) (h : store) (v : sval) : Prop :=
  above lo v /\ closed h v.

Definition primitive (v : sval) : Prop :=
  match v with
  | SRef _ => False
  | _ => True
  end.

(** [v] is a value of the store [h], from [lo] on, and stands for the
    JSON value [w]. *)
Definition stands_for (lo : nat) (h : store) (v : sval) (w : value) : Prop :=
  within lo h v /\ snapshot h v = w.

(** [k] is a key: a primitive, or an object from before [lo]. *)
Definition key_for (lo : nat) (h : store) (k : sval) (w : value) : Prop :=
  below lo k /\ snapshot h k = w.

Definition agrees {A B} (R : A -> B -> Prop) (r : res A) (p : res B) : Prop :=
  match r, p with
  | Ok a, Ok b => R a b
  | Throw e, Throw e' => e = e'
  | _, _ => False
  end.

(** Running [m] from [h] only adds cells, keeps the store well formed and
    its part from [lo] on self contained, and ends as [p] does. *)
Definition run_agrees {A B} (lo : nat) (R : store -> A -> B -> Prop)
    (h : store) (m : M A) (p : res B) : Prop :=
  h `prefix_of` (m h).1 /\ inv lo (m h).1 /\ agrees (R (m h).1) (m h).2 p.

Definition below_b (n : nat) (v : sval) : bool :=
  match v with
  | SRef l => (l <? n)%nat
  | _ => true
  end.

Definition above_b (n : nat) (v : sval) : bool :=
  match v with
  | SRef l => (n <=? l)%nat
  | _ => true
  end.

Definition inv_b (lo : nat) (h : store) : bool :=
  forallb (fun lc =>
    forallb (fun v => below_b lc.1 v && ((lc.1 <? lo)%nat || above_b lo v))
            (cell_values lc.2))
    (imap pair h)
  && (lo <=? length h)%nat.

Definition primitive_value (v : sval) : value :=
  match v with
  | SUndefined => VUndefined
  | SNull => VNull
  | SBool b => VBool b
  | SNum n => VNum n
  | SStr s => VStr s
  | SRef _ => VUndefined
  end.

Definition snapshot_cell (h : store) (c : cell) : value :=
  match c with
  | CArr elems => VArr (snapshot h <$> elems)
  | CObj props => VObj ((fun kv => (kv.1, snapshot h kv.2)) <$> props)
  end.

Definition props_for (lo : nat) (h : store) (props : list (string * sval))
    (wprops : list (string * value)) : Prop :=
  Forall (within lo h) props.*2 /\
  (fun kv => (kv.1, snapshot h kv.2)) <$> props = wprops.

End StoreSpec.

Import StoreSpec.

(** *** Vocabulary of the further statements *)

Import Gateway.

(** A group with one shape: [{ edges: [a] }] or [{ nodes: [a] }]. *)
Definition single_shape (field : string) (a : value) : value :=
  VObj [(field, VArr [a])].

Definition other_shape (field : string) : string :=
  if String.eqb field "edges" then "nodes" else "edges".

(** What [?.map] accepts: nothing, or an array. *)
Definition mappable (v : value) : bool :=
  nullish v || match v with VArr _ => true | _ => false end.

(** What [result?.name] evaluates to; it never throws. *)
Definition field_of (result : value) (name : string) : value :=
  match optional_get result name with
  | Ok v => v
  | Throw _ => VUndefined
  end.

(** The group of position [i] when both shapes are there: node [i] with
    edge [i], or alone when the edges have run out. *)
Definition group_at (es : list value) (i : nat) (n : value) : value :=
  match es !! i with
  | Some e => both_shapes n e
  | None => single_shape "nodes" n
  end.

(** What [resultTransformer] makes of the two fields of a response. *)
Definition normal_form (e n : value) : res value :=
  if mappable e && mappable n then
    match n, e with
    | VArr ns, VArr es => Ok (VArr (imap (group_at es) ns))
    | VArr ns, _ => Ok (VArr (single_shape "nodes" <$> ns))
    | _, VArr es => Ok (VArr (single_shape "edges" <$> es))
    | _, _ => Ok VUndefined
    end
  else Throw TypeError.

(** A group in which the predicate finds [edges] or [nodes]. *)
Definition has_shape (g : value) : Prop :=
  exists edges, get_prop g "edges" = Ok edges /\
    (truthy edges = true \/
     exists nodes, get_prop g "nodes" = Ok nodes /\ truthy nodes = true).

(** The errors the search can end in. *)
Definition search_error (e : exn) : Prop :=
  e = TypeError \/ e = Error missing_key_edges \/
  e = Error missing_key_nodes \/ e = Error missing_shape.






(** The [edges] of a slot, [undefined] for an empty slot. *)
Definition edges_of (slot : value) : value :=
  match slot with
  | VObj props => default VUndefined (obj_lookup "edges" props)
  | _ => VUndefined
  end.

(** A group with both shapes against the group of its edge alone. *)
Definition paired (g g' : value) : Prop :=
  exists n e, g = both_shapes n e /\ g' = single_shape "edges" e.

(** An incoming client request as express hands it over. *)
Definition client_request (headers : list (string * value)) : value :=
  VObj [("method", VStr "POST"); ("headers", VObj headers)].

(** *** Sample data *)

(** A group in the nodes shape for one state. *)
Definition state_record (code : string) : value :=
  VObj [("nodes", VArr [VObj [("stateFipsCode", VStr code);
                              ("stateName", VStr ("state " +:+ code))]])].

(** A group in the edges shape whose node was queried without
    [stateFipsCode]. *)
Definition unkeyed_record : value :=
  VObj [("edges", VArr [VObj [("node", VObj [("stateName", VStr "Alaska")])]])].

(** The context and one of the urls index.js uses, and a backend that
    answers every request with status 500 and a JSON error body. *)
Definition admin_context : value :=
  VObj [("authHeader", VStr "Bearer my-app-to-app-token")].

Definition vaccine_url : string :=
  "https://vaccination-capsc6nslq-uc.a.run.app/graphql".

Definition error_body : value :=
  VObj [("errors", VArr [VObj [("message", VStr "Internal Server Error")]])].

Definition failing_backend (_ : http_request) : http_outcome :=
  Responded 500 (Ok error_body).

(** A stand-in for the serialised request body. *)
Definition sample_stringify (_ : value) : string := "{...}".

(** A response selecting both shapes. *)
Definition sample_response : value :=
  VObj [("edges", VArr [VObj [("node", VObj [("stateFipsCode", VStr "06")])];
                        VObj [("node", VObj [("stateFipsCode", VStr "01")])]]);
        ("nodes", VArr [VObj [("stateFipsCode", VStr "06")];
                        VObj [("stateFipsCode", VStr "01")]])].

(** A key that is an object, then the response, parsed in that order. *)
Definition sample_key_store : Store.store :=
  (Store.load (VArr [VNum 6]) []).1.
Definition sample_store : Store.store :=
  (Store.load sample_response sample_key_store).1.
Definition sample_root : Store.sval :=
  (Store.load sample_response sample_key_store).2.
Definition sample_keys : list Store.sval :=
  [Store.SStr "01"; Store.SRef 0; Store.SStr "02"].

(** ** Facts about the array methods *)

Section ArrayFacts.
Context {A B : Type}.
Implicit Types (f : A -> nat -> res B) (g : A -> res B).

Lemma array_mapi_from_Ok f i elems vs :
  array_mapi_from f i elems = Ok vs <->
  length vs = length elems /\
  forall j x, elems !! j = Some x ->
    exists v, vs !! j = Some v /\ f x (i + j)%nat = Ok v.
Proof.
  revert i vs. induction elems as [|x rest IH]; intros i vs; simpl.
  - split.
    + intros [= <-]. split; [done|]. intros j x Hj. by rewrite lookup_nil in Hj.
    + intros [Hlen _]. destruct vs; [done|discriminate].
  - destruct (f x i) as [y|e] eqn:Hfx; simpl.
    + destruct (array_mapi_from f (S i) rest) as [ys|e] eqn:Hrest; simpl.
      * apply IH in Hrest as [Hlen Hall]. split.
        -- intros [= <-]. split; [simpl; lia|].
           intros [|j] x' Hj; simpl in *.
           ++ injection Hj as <-. exists y. by rewrite Nat.add_0_r.
           ++ destruct (Hall j x' Hj) as (v & Hv & Hf). exists v.
              split; [done|]. by rewrite Nat.add_succ_r.
        -- intros [Hlen' Hall']. destruct vs as [|v vs]; [discriminate|].
           destruct (Hall' 0%nat x eq_refl) as (v' & [= <-] & Hf).
           rewrite Nat.add_0_r, Hfx in Hf. injection Hf as <-.
           f_equal. f_equal. apply list_eq. intros j.
           destruct (rest !! j) as [x'|] eqn:Hj.
           ++ destruct (Hall j x' Hj) as (v1 & Hv1 & Hf1).
              destruct (Hall' (S j) x' Hj) as (v2 & Hv2 & Hf2).
              simpl in Hv2. rewrite Nat.add_succ_r in Hf2. simpl in Hf1.
              rewrite Hv1, Hv2. congruence.
           ++ apply lookup_ge_None in Hj.
              rewrite (proj2 (lookup_ge_None ys j)) by lia.
              simpl in Hlen'. rewrite (proj2 (lookup_ge_None vs j)) by lia. done.
      * split; [discriminate|]. intros [Hlen' Hall'].
        destruct vs as [|v vs]; [discriminate|].
        assert (array_mapi_from f (S i) rest = Ok vs) as Hok.
        { apply IH. split; [simpl in Hlen'; lia|].
          intros j x' Hj. destruct (Hall' (S j) x' Hj) as (v' & Hv' & Hf').
          exists v'. split; [done|]. by rewrite Nat.add_succ_r in Hf'. }
        congruence.
    + split; [discriminate|]. intros [_ Hall'].
      destruct (Hall' 0%nat x eq_refl) as (v' & _ & Hf).
      rewrite Nat.add_0_r in Hf. congruence.
Qed.

Lemma array_map_from_Ok g i elems vs :
  array_mapi_from (fun x _ => g x) i elems = Ok vs <->
  Forall2 (fun x v => g x = Ok v) elems vs.
Proof.
  revert i vs. induction elems as [|x rest IH]; intros i vs; simpl.
  - split; [intros [= <-]; constructor | by inversion 1].
  - destruct (g x) as [y|e] eqn:Hgx; simpl.
    + destruct (array_mapi_from _ (S i) rest) as [ys|e] eqn:Hrest; simpl.
      * apply IH in Hrest. split.
        -- intros [= <-]. by constructor.
        -- inversion 1 as [|? v ? vs' Hg Hall]; subst.
           apply (IH (S i)) in Hall. apply (IH (S i)) in Hrest.
           congruence.
      * split; [discriminate|].
        inversion 1 as [|? v ? vs' Hg Hall]; subst.
        apply (IH (S i)) in Hall. congruence.
    + split; [discriminate|]. inversion 1; congruence.
Qed.

Lemma array_map_Ok g elems vs :
  array_map g elems = Ok vs <-> Forall2 (fun x v => g x = Ok v) elems vs.
Proof. apply array_map_from_Ok. Qed.

End ArrayFacts.

Section FindFacts.
Implicit Types (p : value -> res bool) (pre post : list value).

Lemma array_find_none p elems :
  Forall (fun x => p x = Ok false) elems -> array_find p elems = Ok VUndefined.
Proof. induction 1 as [|x rest Hx _ IH]; simpl; [done|]. by rewrite Hx. Qed.

Lemma array_find_skip p pre rest :
  Forall (fun x => p x = Ok false) pre ->
  array_find p (pre ++ rest) = array_find p rest.
Proof. induction 1 as [|x pre' Hx _ IH]; simpl; [done|]. by rewrite Hx. Qed.

Lemma array_find_first p pre g post :
  Forall (fun x => p x = Ok false) pre -> p g = Ok true ->
  array_find p (pre ++ g :: post) = Ok g.
Proof. intros Hpre Hg. rewrite array_find_skip by done. simpl. by rewrite Hg. Qed.

Lemma array_find_throw p pre g post e :
  Forall (fun x => p x = Ok false) pre -> p g = Throw e ->
  array_find p (pre ++ g :: post) = Throw e.
Proof. intros Hpre Hg. rewrite array_find_skip by done. simpl. by rewrite Hg. Qed.
End FindFacts.

Lemma matches_key_group_key key element :
  matches_key key element = (k ← group_key element; Ok (loose_eq k key)).
Proof.
  unfold matches_key, group_key.
  destruct (get_prop element "edges") as [edges|e]; simpl; [|done].
  destruct (truthy edges).
  - destruct (edge_key edges) as [k|e]; simpl; [|done]. by destruct (truthy k).
  - destruct (get_prop element "nodes") as [nodes|e]; simpl; [|done].
    destruct (truthy nodes); [|done].
    destruct (node_key nodes) as [k|e]; simpl; [|done]. by destruct (truthy k).
Qed.

Lemma matches_key_carries key g :
  carries_key g -> exists b, matches_key key g = Ok b.
Proof. intros [k Hk]. rewrite matches_key_group_key, Hk. by eexists. Qed.

Lemma matches_key_Ok_carries key g b :
  matches_key key g = Ok b -> carries_key g.
Proof.
  rewrite matches_key_group_key. destruct (group_key g) as [k|e] eqn:Hk; [|done].
  intros _. by exists k.
Qed.

Lemma find_Ok_correlated key results v :
  array_find (matches_key key) results = Ok v -> correlated key results v.
Proof.
  revert v. induction results as [|g rest IH]; intros v; simpl.
  - intros [= <-]. by constructor.
  - rewrite matches_key_group_key.
    destruct (group_key g) as [k|e] eqn:Hk; simpl; [|done].
    destruct (loose_eq k key) eqn:Heq.
    + intros [= <-]. by apply (correlated_first key [] g rest k).
    + intros Hfind. destruct (IH v Hfind) as [rest Hall|pre g' post k' Hpre Hg' Heq'].
      * constructor. constructor; [by exists k|done].
      * apply (correlated_first key (g :: pre) g' post k'); [|done..].
        constructor; [by exists k|done].
Qed.

Lemma find_total key results :
  Forall carries_key results ->
  exists v, array_find (matches_key key) results = Ok v.
Proof.
  induction 1 as [|g rest Hg _ [v Hv]]; simpl; [by eexists|].
  destruct (matches_key_carries key g Hg) as [b ->]. simpl.
  destruct b; by eexists.
Qed.

Lemma find_head_matching key results :
  Forall carries_key results ->
  array_find (matches_key key) results =
    Ok (default VUndefined (head (matching key results))).
Proof.
  unfold matching. induction 1 as [|g rest Hg _ IH]; simpl; [done|].
  destruct (matches_key_carries key g Hg) as [b Hb].
  assert (is_match key g = b) as Hm.
  { unfold is_match. rewrite Hb. by destruct b. }
  rewrite Hb. simpl. destruct b.
  - rewrite filter_cons_True; [done|]. by rewrite Hm.
  - rewrite filter_cons_False; [apply IH|]. rewrite Hm. by intros [].
Qed.

Lemma short_Permutation_eq {A} (l k : list A) :
  (length l <= 1)%nat -> k ≡ₚ l -> k = l.
Proof.
  destruct l as [|x [|y l]]; simpl; intros Hlen Hperm; [| |lia].
  - by apply Permutation_nil_r.
  - by apply Permutation_singleton_r.
Qed.

Lemma find_Permutation key results results' :
  Forall carries_key results -> results' ≡ₚ results ->
  (length (matching key results) <= 1)%nat ->
  array_find (matches_key key) results' = array_find (matches_key key) results.
Proof.
  intros Hall Hperm Hone.
  rewrite !find_head_matching; [|done|by rewrite Hperm].
  do 3 f_equal. apply short_Permutation_eq; [done|].
  unfold matching. by rewrite Hperm.
Qed.

Lemma array_map_total {A B} (g : A -> res B) (elems : list A) :
  (forall x, exists v, g x = Ok v) -> exists vs, array_map g elems = Ok vs.
Proof.
  intros Hg. induction elems as [|x rest [vs IH]].
  - by exists [].
  - destruct (Hg x) as [v Hv]. exists (v :: vs).
    apply array_map_Ok. constructor; [done|]. by apply array_map_Ok.
Qed.

(** ** Statements about [valuesFromResults] *)

(** C1.  Whenever [valuesFromResults] returns, it returns one slot per
    key, in the order of the keys: slot [i] holds the group correlated
    with key [i] (or [undefined]), and equal keys get equal slots.  This
    is so for every order [results'] in which the backend lists its groups;
    it does return when every group carries its key, and when moreover no
    key is answered by two groups the slots are the same for every
    order. *)
Theorem valuesFromResults_slots (results results' keys : list value) :
  results' ≡ₚ results ->
  (forall vs, valuesFromResults (VArr results') keys = Ok vs ->
     length vs = length keys /\
     (forall i key, keys !! i = Some key ->
        exists v, vs !! i = Some v /\ correlated key results' v) /\
     (forall i j, keys !! i = keys !! j -> vs !! i = vs !! j)) /\
  (Forall carries_key results ->
     exists vs, valuesFromResults (VArr results') keys = Ok vs /\
       (unambiguous results keys ->
        valuesFromResults (VArr results) keys = Ok vs)).
Proof.
  intros Hperm. split.
  - intros vs Hvs. apply array_map_Ok in Hvs.
    split; [symmetry; by eapply Forall2_length|]. split.
    + intros i key Hi.
      destruct (Forall2_lookup_l _ _ _ _ _ Hvs Hi) as (v & Hv & Hfind).
      exists v. split; [done|]. by apply find_Ok_correlated.
    + intros i j Hij.
      destruct (keys !! i) as [key|] eqn:Hi.
      * symmetry in Hij.
        destruct (Forall2_lookup_l _ _ _ _ _ Hvs Hi) as (v & Hv & Hfind).
        destruct (Forall2_lookup_l _ _ _ _ _ Hvs Hij) as (w & Hw & Hfind').
        rewrite Hv, Hw. congruence.
      * symmetry in Hij. apply lookup_ge_None in Hi, Hij.
        apply Forall2_length in Hvs.
        rewrite !(proj2 (lookup_ge_None vs _)) by lia. done.
  - intros Hall.
    assert (Forall carries_key results') as Hall' by (by rewrite Hperm).
    destruct (array_map_total
                (fun key => call_find (VArr results') (matches_key key)) keys)
      as [vs Hvs].
    { intros key. by apply find_total. }
    exists vs. split; [exact Hvs|].
    intros Hone. apply array_map_Ok in Hvs. apply array_map_Ok.
    unfold unambiguous in Hone.
    induction Hvs as [|key v keys' vs' Hfind _ IH]; [constructor|].
    inversion Hone as [|? ? Hkey Hrest]; subst.
    constructor; [|by apply IH].
    simpl in *. by rewrite <- (find_Permutation key results results').
Qed.

(** The worked example: keys 06, 02, 01, 01 against records returned in
    the order 06, 01, 02. *)
Example valuesFromResults_scenario :
  valuesFromResults
    (VArr [state_record "06"; state_record "01"; state_record "02"])
    [VStr "06"; VStr "02"; VStr "01"; VStr "01"]
  = Ok [state_record "06"; state_record "02"; state_record "01"; state_record "01"].
Proof. reflexivity. Qed.

Lemma valuesFromResults_slots_witness :
  exists vs,
    valuesFromResults
      (VArr [state_record "01"; state_record "06"; state_record "02"])
      [VStr "06"; VStr "02"; VStr "01"; VStr "01"] = Ok vs /\
    valuesFromResults
      (VArr [state_record "06"; state_record "01"; state_record "02"])
      [VStr "06"; VStr "02"; VStr "01"; VStr "01"] = Ok vs /\
    length vs = 4%nat /\
    (forall i key,
       [VStr "06"; VStr "02"; VStr "01"; VStr "01"] !! i = Some key ->
       exists v, vs !! i = Some v /\
         correlated key [state_record "01"; state_record "06"; state_record "02"] v) /\
    (forall i j,
       [VStr "06"; VStr "02"; VStr "01"; VStr "01"] !! i =
       [VStr "06"; VStr "02"; VStr "01"; VStr "01"] !! j -> vs !! i = vs !! j).
Proof.
  destruct (valuesFromResults_slots
              [state_record "06"; state_record "01"; state_record "02"]
              [state_record "01"; state_record "06"; state_record "02"]
              [VStr "06"; VStr "02"; VStr "01"; VStr "01"])
    as [Hslots Hreturns].
  - apply perm_swap.
  - destruct Hreturns as (vs & Hvs & Hsame).
    + repeat constructor; eexists; reflexivity.
    + exists vs. split; [exact Hvs|]. split.
      * apply Hsame. repeat constructor.
      * apply Hslots. exact Hvs.
Defined.

Example scenario_unambiguous :
  unambiguous [state_record "06"; state_record "01"; state_record "02"]
              [VStr "06"; VStr "02"; VStr "01"; VStr "01"].
Proof. repeat constructor. Qed.

(** Two groups whose keys both [==] the key: the first one listed wins. *)
Example ambiguous_order_matters :
  valuesFromResults
    (VArr [VObj [("nodes", VArr [VObj [("stateFipsCode", VStr "06")]])];
           VObj [("nodes", VArr [VObj [("stateFipsCode", VNum 6)]])]])
    [VNum 6]
  = Ok [VObj [("nodes", VArr [VObj [("stateFipsCode", VStr "06")]])]] /\
  valuesFromResults
    (VArr [VObj [("nodes", VArr [VObj [("stateFipsCode", VNum 6)]])];
           VObj [("nodes", VArr [VObj [("stateFipsCode", VStr "06")]])]])
    [VNum 6]
  = Ok [VObj [("nodes", VArr [VObj [("stateFipsCode", VNum 6)]])]].
Proof. split; reflexivity. Qed.

(** C2.  A key that no group answers gets [undefined] in its own slot;
    every other slot is what its key yields on its own, and dropping the
    unanswered key from the window only drops that slot. *)
Theorem valuesFromResults_unmatched_key
    (results keys : list value) (i : nat) (key : value) :
  keys !! i = Some key ->
  Forall (fun g => matches_key key g = Ok false) results ->
  exists vs,
    valuesFromResults (VArr results) keys = Ok vs /\
    length vs = length keys /\
    vs !! i = Some VUndefined /\
    (forall j key', j <> i -> keys !! j = Some key' ->
       exists v, vs !! j = Some v /\
                 valuesFromResults (VArr results) [key'] = Ok [v]) /\
    valuesFromResults (VArr results) (delete i keys) = Ok (delete i vs).
Proof.
  intros Hi Hnone.
  assert (Forall carries_key results) as Hall.
  { eapply Forall_impl; [exact Hnone|]. intros g Hg.
    exact (matches_key_Ok_carries key g false Hg). }
  destruct (array_map_total
              (fun key => call_find (VArr results) (matches_key key)) keys)
    as [vs Hvs].
  { intros key'. by apply find_total. }
  exists vs. split; [exact Hvs|].
  apply array_map_Ok in Hvs.
  split; [symmetry; by eapply Forall2_length|].
  split; [|split].
  - destruct (Forall2_lookup_l _ _ _ _ _ Hvs Hi) as (v & Hv & Hfind).
    simpl in Hfind. rewrite array_find_none in Hfind by done. congruence.
  - intros j key' _ Hj.
    destruct (Forall2_lookup_l _ _ _ _ _ Hvs Hj) as (v & Hv & Hfind).
    exists v. split; [done|]. apply array_map_Ok.
    constructor; [exact Hfind|constructor].
  - apply array_map_Ok. by apply Forall2_delete.
Qed.

Lemma valuesFromResults_unmatched_key_witness :
  exists vs,
    valuesFromResults (VArr [state_record "06"; state_record "02"])
      [VStr "06"; VStr "31"; VStr "02"] = Ok vs /\
    length vs = 3%nat /\
    vs !! 1%nat = Some VUndefined /\
    (forall j key', j <> 1%nat ->
       [VStr "06"; VStr "31"; VStr "02"] !! j = Some key' ->
       exists v, vs !! j = Some v /\
         valuesFromResults (VArr [state_record "06"; state_record "02"]) [key']
         = Ok [v]) /\
    valuesFromResults (VArr [state_record "06"; state_record "02"])
      [VStr "06"; VStr "02"] = Ok (delete 1%nat vs).
Proof.
  apply (valuesFromResults_unmatched_key
           [state_record "06"; state_record "02"]
           [VStr "06"; VStr "31"; VStr "02"] 1 (VStr "31")).
  - reflexivity.
  - repeat constructor.
Defined.

Example valuesFromResults_gap :
  valuesFromResults (VArr [state_record "06"; state_record "02"])
    [VStr "06"; VStr "31"; VStr "02"]
  = Ok [state_record "06"; VUndefined; state_record "02"].
Proof. reflexivity. Qed.

(** ** Statements about [resultTransformer] *)

Lemma array_mapi_from_pure {A B} (f : A -> B) (i : nat) (elems : list A) :
  array_mapi_from (fun a _ => Ok (f a)) i elems = Ok (map f elems).
Proof.
  revert i. induction elems as [|x rest IH]; intros i; simpl; [done|].
  by rewrite IH.
Qed.

Lemma optional_map_array (f : value -> value) (elems : list value) :
  optional_map (VArr elems) f = Ok (VArr (map f elems)).
Proof.
  unfold optional_map, call_mapi, array_mapi. simpl.
  by rewrite array_mapi_from_pure.
Qed.

Lemma get_prop_Ok_not_nullish (v : value) (name : string) (x : value) :
  get_prop v name = Ok x -> nullish v = false.
Proof. by destruct v. Qed.

(** C3.  A response with an edges sequence and a nodes sequence of the
    same length [L] is normalised to [L] groups; group [i] holds node [i]
    under [nodes] and edge [i] under [edges]. *)
Theorem resultTransformer_combines (result : value) (es ns : list value) :
  get_prop result "edges" = Ok (VArr es) ->
  get_prop result "nodes" = Ok (VArr ns) ->
  length es = length ns ->
  exists groups,
    resultTransformer result = Ok (VArr groups) /\
    length groups = length ns /\
    forall i e n, es !! i = Some e -> ns !! i = Some n ->
      groups !! i = Some (both_shapes n e).
Proof.
  intros Hes Hns Hlen.
  exists (zip_with both_shapes ns es).
  split; [|split].
  - unfold resultTransformer, optional_get.
    rewrite (get_prop_Ok_not_nullish _ _ _ Hes), Hes. simpl.
    rewrite optional_map_array. simpl.
    rewrite Hns. simpl. rewrite optional_map_array. simpl.
    unfold array_mapi.
    match goal with
    | |- VArr <$> ?m = _ =>
        assert (m = Ok (zip_with both_shapes ns es)) as ->; [|done]
    end.
    apply array_mapi_from_Ok. split.
    + rewrite length_zip_with, length_map. lia.
    + intros j x Hj. rewrite list_lookup_fmap in Hj.
      destruct (ns !! j) as [n|] eqn:Hn; [|done]. injection Hj as <-.
      destruct (es !! j) as [e|] eqn:He.
      2:{ apply lookup_ge_None in He. apply lookup_lt_Some in Hn. lia. }
      exists (both_shapes n e). split.
      * by rewrite lookup_zip_with, Hn, He.
      * simpl. by rewrite list_lookup_fmap, He.
  - rewrite length_zip_with. lia.
  - intros i e n He Hn. by rewrite lookup_zip_with, Hn, He.
Qed.

Lemma resultTransformer_combines_witness :
  exists groups,
    resultTransformer
      (VObj [("edges", VArr [VObj [("node", VStr "a")]; VObj [("node", VStr "b")]]);
             ("nodes", VArr [VStr "a"; VStr "b"])])
    = Ok (VArr groups) /\
    length groups = 2%nat /\
    forall i e n,
      [VObj [("node", VStr "a")]; VObj [("node", VStr "b")]] !! i = Some e ->
      [VStr "a"; VStr "b"] !! i = Some n ->
      groups !! i = Some (both_shapes n e).
Proof.
  apply (resultTransformer_combines
           (VObj [("edges", VArr [VObj [("node", VStr "a")]; VObj [("node", VStr "b")]]);
                  ("nodes", VArr [VStr "a"; VStr "b"])])
           [VObj [("node", VStr "a")]; VObj [("node", VStr "b")]]
           [VStr "a"; VStr "b"]); reflexivity.
Defined.

(** The two shapes are paired by position, whatever keys they carry. *)
Example resultTransformer_by_position :
  resultTransformer
    (VObj [("edges", VArr [VObj [("node", VObj [("stateFipsCode", VStr "06")])];
                           VObj [("node", VObj [("stateFipsCode", VStr "01")])]]);
           ("nodes", VArr [VObj [("stateFipsCode", VStr "01")];
                           VObj [("stateFipsCode", VStr "06")]])])
  = Ok (VArr [both_shapes (VObj [("stateFipsCode", VStr "01")])
                          (VObj [("node", VObj [("stateFipsCode", VStr "06")])]);
              both_shapes (VObj [("stateFipsCode", VStr "06")])
                          (VObj [("node", VObj [("stateFipsCode", VStr "01")])])]).
Proof. reflexivity. Qed.

(** ** When the search fails *)

Lemma array_map_from_throw {A B} (g : A -> res B) i l1 x l2 vs1 e :
  array_mapi_from (fun a _ => g a) i l1 = Ok vs1 -> g x = Throw e ->
  array_mapi_from (fun a _ => g a) i (l1 ++ x :: l2) = Throw e.
Proof.
  revert i vs1. induction l1 as [|y l1 IH]; intros i vs1; simpl.
  - intros _ ->. done.
  - destruct (g y) as [v|e']; simpl; [|done].
    destruct (array_mapi_from _ (S i) l1) as [vs|e'] eqn:Hrest; simpl; [|done].
    intros _ Hx. by rewrite (IH (S i) vs Hrest Hx).
Qed.

Lemma examined_throw (results keys : list value) (key g : value) (e : exn) :
  examines results keys key g -> matches_key key g = Throw e ->
  valuesFromResults (VArr results) keys = Throw e.
Proof.
  intros (ks1 & ks2 & pre & post & vs1 & -> & -> & Hks1 & Hpre) Hg.
  unfold valuesFromResults, array_map, array_mapi in *.
  eapply array_map_from_throw; [exact Hks1|].
  simpl. by apply array_find_throw.
Qed.




(** C10.  A response whose first record does carry [stateFipsCode], with a
    falsy value ([0], the empty string, [false], [null]), is rejected with
    the missing-key error of its shape: the predicate tests the value of
    the field, not its presence. *)
Theorem falsy_key_rejected
    (fields : list (string * value)) (k key : value)
    (more_nodes more_edges keys : list value) :
  obj_lookup "stateFipsCode" fields = Some k ->
  truthy k = false ->
  batch_values (VObj [("nodes", VArr (VObj fields :: more_nodes))]) (key :: keys)
    = Throw (Error missing_key_nodes) /\
  batch_values (VObj [("edges", VArr (VObj [("node", VObj fields)] :: more_edges))])
               (key :: keys)
    = Throw (Error missing_key_edges).
Proof.
  intros Hfield Hfalsy. split.
  - unfold batch_values, resultTransformer. simpl.
    rewrite optional_map_array. simpl.
    unfold valuesFromResults, array_map, array_mapi. simpl.
    unfold matches_key, node_key. simpl. rewrite Hfield. simpl.
    by rewrite Hfalsy.
  - unfold batch_values, resultTransformer. simpl.
    rewrite optional_map_array. simpl.
    unfold valuesFromResults, array_map, array_mapi. simpl.
    unfold matches_key, edge_key. simpl. rewrite Hfield. simpl.
    by rewrite Hfalsy.
Qed.

Lemma falsy_key_rejected_witness :
  batch_values
    (VObj [("nodes", VArr [VObj [("stateFipsCode", VNum 0); ("stateName", VStr "none")];
                           VObj [("stateFipsCode", VNum 6)]])])
    [VNum 0; VNum 6]
    = Throw (Error missing_key_nodes) /\
  batch_values
    (VObj [("edges",
            VArr [VObj [("node", VObj [("stateFipsCode", VNum 0);
                                        ("stateName", VStr "none")])];
                  VObj [("node", VObj [("stateFipsCode", VNum 6)])]])])
    [VNum 0; VNum 6]
    = Throw (Error missing_key_edges).
Proof.
  apply (falsy_key_rejected
           [("stateFipsCode", VNum 0); ("stateName", VStr "none")] (VNum 0) (VNum 0)).
  - reflexivity.
  - reflexivity.
Defined.

Example empty_string_key_rejected :
  batch_values (VObj [("nodes", VArr [VObj [("stateFipsCode", VStr "")]])]) [VStr ""]
  = Throw (Error missing_key_nodes).
Proof. reflexivity. Qed.

(** ** Responses and groups with neither shape *)







(** ** Statements about the remote executor *)

Section ExecutorFacts.
Context {ast : Type}.
Variable print : ast -> string.
Variable JSON_stringify : value -> string.
Variable fetch : http_request -> http_outcome.

Local Abbreviation run := (makeRemoteExecutor print JSON_stringify fetch).

Lemma executor_sends_one (url : string) (doc : document ast)
    (variables context : value) :
  nullish context = false ->
  exists auth request,
    get_prop context "authHeader" = Ok auth /\
    run url doc variables context =
      ([request],
       match fetch request with
       | Rejected e => Throw e
       | Responded _ json => json
       end) /\
    req_url request = url /\
    req_method request = "POST" /\
    req_headers request =
      [("Authorization", auth); ("Content-Type", VStr "application/json")].
Proof.
  intros Hctx. unfold makeRemoteExecutor.
  destruct (get_prop context "authHeader") as [auth|e] eqn:Hauth.
  - exists auth. eexists. repeat split.
  - by destruct context.
Qed.

(** C8.  With a request context at hand, the executor sends exactly one
    request, a POST to the backend's url, and its [Authorization] header
    is [context.authHeader]. *)
Theorem executor_attaches_authorization (url : string) (doc : document ast)
    (variables context : value) :
  nullish context = false ->
  exists auth request,
    get_prop context "authHeader" = Ok auth /\
    (run url doc variables context).1 = [request] /\
    req_url request = url /\
    req_method request = "POST" /\
    obj_lookup "Authorization" (req_headers request) = Some auth.
Proof.
  intros Hctx.
  destruct (executor_sends_one url doc variables context Hctx)
    as (auth & request & Hauth & Hrun & Hurl & Hmethod & Hheaders).
  exists auth, request. rewrite Hrun, Hheaders. by repeat split.
Qed.

(** C6, as the code has it.  The executor hands on what the transport
    gave: a rejection of [fetch] is thrown as it came, a body that is
    not JSON throws from [json()], and a JSON body is returned as the
    result whatever the status of the response. *)
Theorem executor_passes_outcome_through (url : string) (doc : document ast)
    (variables context : value) :
  nullish context = false ->
  exists request,
    (run url doc variables context).1 = [request] /\
    (forall e, fetch request = Rejected e ->
       (run url doc variables context).2 = Throw e) /\
    (forall status e, fetch request = Responded status (Throw e) ->
       (run url doc variables context).2 = Throw e) /\
    (forall status body, fetch request = Responded status (Ok body) ->
       (run url doc variables context).2 = Ok body).
Proof.
  intros Hctx.
  destruct (executor_sends_one url doc variables context Hctx)
    as (auth & request & Hauth & Hrun & _).
  exists request. rewrite Hrun. simpl.
  repeat split; intros; by match goal with H : fetch _ = _ |- _ => rewrite H end.
Qed.

End ExecutorFacts.

Lemma executor_attaches_authorization_witness :
  exists auth request,
    get_prop admin_context "authHeader" = Ok auth /\
    (makeRemoteExecutor (fun text : string => text) sample_stringify failing_backend
       vaccine_url (DocText "{ heartbeat }") VUndefined admin_context).1 = [request] /\
    req_url request = vaccine_url /\
    req_method request = "POST" /\
    obj_lookup "Authorization" (req_headers request) = Some auth.
Proof.
  apply (executor_attaches_authorization (fun text : string => text)
           sample_stringify failing_backend vaccine_url (DocText "{ heartbeat }")
           VUndefined admin_context).
  reflexivity.
Defined.

Lemma executor_passes_outcome_through_witness :
  exists request,
    (makeRemoteExecutor (fun text : string => text) sample_stringify failing_backend
       vaccine_url (DocText "{ heartbeat }") VUndefined admin_context).1 = [request] /\
    (forall e, failing_backend request = Rejected e ->
       (makeRemoteExecutor (fun text : string => text) sample_stringify failing_backend
          vaccine_url (DocText "{ heartbeat }") VUndefined admin_context).2 = Throw e) /\
    (forall status e, failing_backend request = Responded status (Throw e) ->
       (makeRemoteExecutor (fun text : string => text) sample_stringify failing_backend
          vaccine_url (DocText "{ heartbeat }") VUndefined admin_context).2 = Throw e) /\
    (forall status body, failing_backend request = Responded status (Ok body) ->
       (makeRemoteExecutor (fun text : string => text) sample_stringify failing_backend
          vaccine_url (DocText "{ heartbeat }") VUndefined admin_context).2 = Ok body).
Proof.
  apply (executor_passes_outcome_through (fun text : string => text)
           sample_stringify failing_backend vaccine_url (DocText "{ heartbeat }")
           VUndefined admin_context).
  reflexivity.
Defined.

(** A refused connection and a body that is not JSON both end in a
    throw. *)
Example executor_network_failure :
  (makeRemoteExecutor (fun text : string => text) sample_stringify
     (fun _ => Rejected (FetchError "ECONNREFUSED"))
     vaccine_url (DocText "{ heartbeat }") VUndefined admin_context).2
    = Throw (FetchError "ECONNREFUSED") /\
  (makeRemoteExecutor (fun text : string => text) sample_stringify
     (fun _ => Responded 502 (Throw SyntaxError))
     vaccine_url (DocText "{ heartbeat }") VUndefined admin_context).2
    = Throw SyntaxError.
Proof. split; reflexivity. Qed.

(** C6 as the specification words it does not hold: a response with
    status 500 is returned to the caller as an ordinary result. *)
Lemma executor_returns_http_500_body :
  failing_backend
    (HttpRequest vaccine_url "POST"
       [("Authorization", VStr "Bearer my-app-to-app-token");
        ("Content-Type", VStr "application/json")]
       (sample_stringify
          (VObj [("query", VStr "{ heartbeat }"); ("variables", VUndefined)])))
    = Responded 500 (Ok error_body) /\
  (makeRemoteExecutor (fun text : string => text) sample_stringify failing_backend
     vaccine_url (DocText "{ heartbeat }") VUndefined admin_context).2
    = Ok error_body /\
  is_throw
    (makeRemoteExecutor (fun text : string => text) sample_stringify failing_backend
       vaccine_url (DocText "{ heartbeat }") VUndefined admin_context).2 = false.
Proof. repeat split. Qed.

(** ** The store model agrees with the value model *)

Module StoreFacts.
Import Store.

Section Region.
(** Where the response and everything allocated after it live. *)
Variable lo : nat.

Lemma inv_check h : inv_b lo h = true -> inv lo h.
Proof.
  unfold inv_b. intros Hb. apply andb_prop in Hb as [Hcells Hlo].
  apply Nat.leb_le in Hlo.
  apply Is_true_true, forallb_True in Hcells.
  assert (forall l c, h !! l = Some c ->
            Forall (fun v => below l v /\ ((lo <= l)%nat -> above lo v))
                   (cell_values c)) as Hall.
  { intros l c Hl.
    assert (imap pair h !! l = Some (l, c)) as Hlc
      by (by rewrite list_lookup_imap, Hl).
    pose proof (Forall_lookup_1 _ _ _ _ Hcells Hlc) as Hc. simpl in Hc.
    apply forallb_True in Hc. eapply Forall_impl; [exact Hc|].
    intros v Hv. apply Is_true_true, andb_prop in Hv as [Hb1 Hb2].
    destruct v as [| | | | |l']; simpl in *; try done.
    apply Nat.ltb_lt in Hb1. split; [done|]. intros Hle.
    apply orb_prop in Hb2 as [Hb2|Hb2].
    - apply Nat.ltb_lt in Hb2. lia.
    - by apply Nat.leb_le in Hb2. }
  split; [|split; [|done]].
  - intros l c Hl. eapply Forall_impl; [exact (Hall l c Hl)|]. by intros v [? _].
  - intros l c Hle Hl. eapply Forall_impl; [exact (Hall l c Hl)|].
    intros v [_ Hv]. by apply Hv.
Qed.

Lemma below_le n m v : below n v -> (n <= m)%nat -> below m v.
Proof. destruct v; simpl; lia. Qed.

Lemma reify_fuel h f1 f2 v :
  well_formed h -> below f1 v -> below f2 v -> reify f1 h v = reify f2 h v.
Proof.
  intros Hwf. revert f2 v.
  induction f1 as [|f1 IH]; intros f2 v H1 H2; destruct v as [| | | | |l];
    try (by destruct f2); simpl in *; try lia.
  destruct f2 as [|f2]; [lia|]. simpl.
  destruct (h !! l) as [[elems|props]|] eqn:Hl; [| |done].
  - f_equal. apply Forall_fmap_ext.
    eapply Forall_impl; [exact (Hwf l _ Hl)|]. simpl.
    intros x Hx. apply IH; eapply below_le; eauto; lia.
  - f_equal. apply Forall_fmap_ext.
    specialize (Hwf l _ Hl). simpl in Hwf.
    rewrite Forall_fmap in Hwf.
    eapply Forall_impl; [exact Hwf|]. simpl.
    intros [k x] Hx. simpl in *. f_equal.
    apply IH; eapply below_le; eauto; lia.
Qed.

Lemma reify_prefix h h' fuel v :
  well_formed h -> h `prefix_of` h' -> closed h v ->
  reify fuel h' v = reify fuel h v.
Proof.
  intros Hwf Hpre. revert v.
  induction fuel as [|fuel IH]; intros v Hv; destruct v as [| | | | |l];
    try done.
  unfold closed in Hv. simpl in *.
  rewrite <- (prefix_lookup_lt h h' l) by done.
  destruct (h !! l) as [[elems|props]|] eqn:Hl; [| |done].
  - f_equal. apply Forall_fmap_ext.
    eapply Forall_impl; [exact (Hwf l _ Hl)|]. simpl.
    intros x Hx. apply IH. eapply below_le; eauto; lia.
  - f_equal. apply Forall_fmap_ext.
    specialize (Hwf l _ Hl). simpl in Hwf.
    rewrite Forall_fmap in Hwf.
    eapply Forall_impl; [exact Hwf|]. simpl.
    intros [k x] Hx. simpl in *. f_equal.
    apply IH. eapply below_le; eauto; lia.
Qed.

Lemma snapshot_prefix h h' v :
  well_formed h -> h `prefix_of` h' -> closed h v ->
  snapshot h' v = snapshot h v.
Proof.
  intros Hwf Hpre Hv. unfold snapshot.
  rewrite (reify_prefix h h') by done.
  apply reify_fuel; [done| |done].
  eapply below_le; [exact Hv|]. by apply prefix_length.
Qed.

Lemma stands_for_prefix h h' v w :
  inv lo h -> h `prefix_of` h' -> stands_for lo h v w -> stands_for lo h' v w.
Proof.
  intros (Hwf & _ & _) Hpre [[Hlo Hv] Hw]. split; [split; [done|]|].
  - eapply below_le; [exact Hv|]. by apply prefix_length.
  - by rewrite (snapshot_prefix h h').
Qed.

Lemma key_for_closed h k w : inv lo h -> key_for lo h k w -> closed h k.
Proof. intros (_ & _ & Hlo) [Hk _]. by eapply below_le. Qed.

Lemma key_for_prefix h h' k w :
  inv lo h -> h `prefix_of` h' -> key_for lo h k w -> key_for lo h' k w.
Proof.
  intros Hinv Hpre Hkey. pose proof (key_for_closed h k w Hinv Hkey) as Hcl.
  destruct Hinv as (Hwf & _ & _), Hkey as [Hk Hw]. split; [done|].
  by rewrite (snapshot_prefix h h').
Qed.

Lemma within_closed h v : within lo h v -> closed h v.
Proof. by intros [_ ?]. Qed.

Lemma inv_alloc h c :
  inv lo h -> Forall (within lo h) (cell_values c) -> inv lo (h ++ [c]).
Proof.
  intros (Hwf & Hsc & Hlo) Hc. split; [|split].
  - intros l c' Hl.
    apply lookup_snoc_Some in Hl as [[Hlt Hl]|[-> <-]]; [by eapply Hwf|].
    eapply Forall_impl; [exact Hc|]. by intros v [_ ?].
  - intros l c' Hle Hl.
    apply lookup_snoc_Some in Hl as [[Hlt Hl]|[-> <-]]; [by eapply Hsc|].
    eapply Forall_impl; [exact Hc|]. by intros v [? _].
  - rewrite length_app. simpl. lia.
Qed.

Lemma snapshot_alloc h c :
  well_formed h -> Forall (closed h) (cell_values c) ->
  snapshot (h ++ [c]) (SRef (length h)) =
    match c with
    | CArr elems => VArr (snapshot h <$> elems)
    | CObj props => VObj ((fun kv => (kv.1, snapshot h kv.2)) <$> props)
    end.
Proof.
  intros Hwf Hc. unfold snapshot. rewrite length_app. simpl.
  rewrite Nat.add_1_r. simpl. rewrite list_lookup_middle by done.
  destruct c as [elems|props]; simpl in *; f_equal; apply Forall_fmap_ext.
  - eapply Forall_impl; [exact Hc|]. simpl. intros x Hx.
    apply reify_prefix; [done| |done]. by apply prefix_app_r.
  - rewrite Forall_fmap in Hc. eapply Forall_impl; [exact Hc|]. simpl.
    intros [k x] Hx. simpl in *. f_equal.
    apply reify_prefix; [done| |done]. by apply prefix_app_r.
Qed.

Lemma snapshot_primitive h v : primitive v -> snapshot h v = primitive_value v.
Proof. unfold snapshot. by destruct v, (length h). Qed.

Lemma snapshot_ref_closed h l :
  well_formed h -> closed h (SRef l) ->
  exists c, h !! l = Some c /\ snapshot h (SRef l) = snapshot_cell h c.
Proof.
  intros Hwf Hl. unfold closed in Hl. simpl in Hl.
  destruct (lookup_lt_is_Some_2 h l Hl) as [c Hc]. exists c.
  pose proof (Hwf l c Hc) as Hbelow.
  split; [done|].
  unfold snapshot. destruct (length h) as [|n] eqn:Hn; [lia|].
  simpl. rewrite Hc. destruct c as [elems|props]; simpl in *;
    f_equal; apply Forall_fmap_ext.
  - eapply Forall_impl; [exact Hbelow|]. simpl. intros x Hx.
    apply reify_fuel; [done|..]; eapply below_le; eauto; lia.
  - rewrite Forall_fmap in Hbelow. eapply Forall_impl; [exact Hbelow|]. simpl.
    intros [k x] Hx. simpl in *. f_equal.
    apply reify_fuel; [done|..]; eapply below_le; eauto; lia.
Qed.

Lemma snapshot_ref h l :
  inv lo h -> within lo h (SRef l) ->
  exists c, h !! l = Some c /\ Forall (within lo h) (cell_values c) /\
            snapshot h (SRef l) = snapshot_cell h c.
Proof.
  intros (Hwf & Hsc & _) [Hlo Hl].
  destruct (snapshot_ref_closed h l Hwf Hl) as (c & Hc & Hsnap).
  exists c. split; [done|]. split; [|done].
  unfold closed in Hl. simpl in Hlo, Hl.
  pose proof (Hwf l c Hc) as Hbelow. pose proof (Hsc l c Hlo Hc) as Habove.
  apply Forall_lookup. intros i x Hx. split.
  - by eapply Forall_lookup_1.
  - eapply below_le; [by eapply Forall_lookup_1|]. lia.
Qed.

Lemma obj_lookup_fmap {A B} (f : A -> B) name (props : list (string * A)) :
  obj_lookup name ((fun kv => (kv.1, f kv.2)) <$> props) = f <$> obj_lookup name props.
Proof.
  induction props as [|[k x] props IH]; simpl; [done|].
  by destruct (String.eqb k name).
Qed.

Lemma obj_lookup_elem {A} name (props : list (string * A)) x :
  obj_lookup name props = Some x -> x ∈ props.*2.
Proof.
  induction props as [|[k y] props IH]; simpl; [done|].
  destruct (String.eqb k name).
  - intros [= ->]. by left.
  - intros Hx. right. by apply IH.
Qed.

Lemma stands_for_primitive h v :
  primitive v -> stands_for lo h v (primitive_value v).
Proof. intros Hv. split; [by destruct v|]. by apply snapshot_primitive. Qed.

Lemma stands_for_lookup h (o : option sval) (xs : list sval) :
  Forall (within lo h) xs -> (forall x, o = Some x -> x ∈ xs) ->
  stands_for lo h (default SUndefined o) (default VUndefined (snapshot h <$> o)).
Proof.
  intros Hxs Ho. destruct o as [x|]; simpl.
  - split; [|done]. eapply Forall_forall; [exact Hxs|]. by apply Ho.
  - by apply (stands_for_primitive h SUndefined).
Qed.

Lemma get_prop_agrees h v w name :
  inv lo h -> stands_for lo h v w ->
  agrees (stands_for lo h) (get_prop h v name) (JS.get_prop w name).
Proof.
  intros Hwf [Hv <-]. destruct v as [| |b|n|s|l];
    try (rewrite snapshot_primitive by done; simpl; try done;
         try destruct (String.eqb name "length");
         by apply stands_for_primitive).
  destruct (snapshot_ref h l Hwf Hv) as (c & Hc & Hclosed & ->).
  simpl. rewrite Hc. destruct c as [elems|props]; simpl.
  - rewrite length_fmap. destruct (String.eqb name "length");
      by apply stands_for_primitive.
  - rewrite obj_lookup_fmap.
    apply (stands_for_lookup h _ props.*2); [done|].
    intros x. apply obj_lookup_elem.
Qed.

Lemma get_index_agrees h v w i :
  inv lo h -> stands_for lo h v w ->
  agrees (stands_for lo h) (get_index h v i) (JS.get_index w i).
Proof.
  intros Hwf [Hv <-]. destruct v as [| |b|n|s|l];
    try (rewrite snapshot_primitive by done; simpl; try done;
         by apply (stands_for_primitive h SUndefined)).
  - rewrite snapshot_primitive by done. simpl.
    unfold char_at, JS.char_at. destruct (String.get i s);
      by apply stands_for_primitive.
  - destruct (snapshot_ref h l Hwf Hv) as (c & Hc & Hclosed & ->).
    simpl. rewrite Hc. destruct c as [elems|props]; simpl.
    + rewrite list_lookup_fmap.
      apply (stands_for_lookup h _ elems); [done|].
      intros x Hx. by eapply list_elem_of_lookup_2.
    + rewrite obj_lookup_fmap.
      apply (stands_for_lookup h _ props.*2); [done|].
      intros x. apply obj_lookup_elem.
Qed.

Lemma truthy_agrees h v w :
  inv lo h -> stands_for lo h v w -> JS.truthy w = truthy v.
Proof.
  intros Hwf [Hv <-]. destruct v as [| |b|n|s|l];
    try (by rewrite snapshot_primitive).
  destruct (snapshot_ref h l Hwf Hv) as (c & _ & _ & ->). by destruct c.
Qed.

Lemma nullish_agrees h v w :
  inv lo h -> stands_for lo h v w -> JS.nullish w = nullish v.
Proof.
  intros Hwf [Hv <-]. destruct v as [| |b|n|s|l];
    try (by rewrite snapshot_primitive).
  destruct (snapshot_ref h l Hwf Hv) as (c & _ & _ & ->). by destruct c.
Qed.

Lemma loose_eq_agrees h x y wx wy :
  inv lo h -> stands_for lo h x wx -> key_for lo h y wy ->
  loose_eq h x y = JS.loose_eq wx wy.
Proof.
  intros Hinv [[Hlo Hx] <-] Hkey.
  pose proof (key_for_closed h y wy Hinv Hkey) as Hy.
  destruct Hinv as (Hwf & _ & _), Hkey as [Hbelow <-].
  destruct x as [| | | | |lx]; [by destruct y..|].
  destruct y as [| | | | |ly]; try done.
  destruct (snapshot_ref_closed h lx Hwf Hx) as (cx & _ & ->).
  destruct (snapshot_ref_closed h ly Hwf Hy) as (cy & _ & ->).
  simpl in *. rewrite bool_decide_eq_false_2 by lia.
  by destruct cx, cy.
Qed.

Lemma agrees_bind {A A' B B'} (R : A -> B -> Prop) (R' : A' -> B' -> Prop)
    (r : res A) (p : res B) (f : A -> res A') (g : B -> res B') :
  agrees R r p -> (forall a b, R a b -> agrees R' (f a) (g b)) ->
  agrees R' (r ≫= f) (p ≫= g).
Proof. destruct r, p; simpl; try done. intros HR Hf. by apply Hf. Qed.

Lemma edge_key_agrees h edges w :
  inv lo h -> stands_for lo h edges w ->
  agrees (stands_for lo h) (edge_key h edges) (Batch.edge_key w).
Proof.
  intros Hwf Hedges. unfold edge_key, Batch.edge_key.
  eapply agrees_bind; [by apply get_index_agrees|]. intros e0 w0 He0.
  eapply agrees_bind; [by apply get_prop_agrees|]. intros node wn Hnode.
  by apply get_prop_agrees.
Qed.

Lemma node_key_agrees h nodes w :
  inv lo h -> stands_for lo h nodes w ->
  agrees (stands_for lo h) (node_key h nodes) (Batch.node_key w).
Proof.
  intros Hwf Hnodes. unfold node_key, Batch.node_key.
  eapply agrees_bind; [by apply get_index_agrees|]. intros n0 w0 Hn0.
  by apply get_prop_agrees.
Qed.

Lemma matches_key_agrees h key wkey element w :
  inv lo h -> key_for lo h key wkey -> stands_for lo h element w ->
  agrees eq (matches_key h key element) (Batch.matches_key wkey w).
Proof.
  intros Hwf Hkey Hel. unfold matches_key, Batch.matches_key.
  eapply agrees_bind; [by apply get_prop_agrees|]. intros edges we Hedges.
  rewrite (truthy_agrees h edges we) by done. destruct (truthy edges).
  - eapply agrees_bind; [by apply edge_key_agrees|]. intros k wk Hk.
    rewrite (truthy_agrees h k wk) by done. destruct (truthy k); simpl; [|done].
    eapply agrees_bind; [by apply edge_key_agrees|]. intros k' wk' Hk'.
    simpl. by apply loose_eq_agrees.
  - eapply agrees_bind; [by apply get_prop_agrees|]. intros nodes wn Hnodes.
    rewrite (truthy_agrees h nodes wn) by done. destruct (truthy nodes); [|done].
    eapply agrees_bind; [by apply node_key_agrees|]. intros k wk Hk.
    rewrite (truthy_agrees h k wk) by done. destruct (truthy k); simpl; [|done].
    eapply agrees_bind; [by apply node_key_agrees|]. intros k' wk' Hk'.
    simpl. by apply loose_eq_agrees.
Qed.

Lemma array_find_agrees h p q elems ws :
  Forall2 (stands_for lo h) elems ws ->
  (forall a b, stands_for lo h a b -> agrees eq (p a) (q b)) ->
  agrees (stands_for lo h) (array_find p elems) (JS.array_find q ws).
Proof.
  intros Hall Hpq. induction Hall as [|a b elems ws Hab _ IH]; simpl.
  - by apply (stands_for_primitive h SUndefined).
  - specialize (Hpq a b Hab).
    destruct (p a) as [x|e], (q b) as [y|e']; simpl in *; try done.
    subst y. by destruct x.
Qed.

Lemma stands_for_snapshots h elems :
  Forall (within lo h) elems -> Forall2 (stands_for lo h) elems (snapshot h <$> elems).
Proof.
  intros Hall. apply Forall2_fmap_r, Forall_Forall2_diag.
  eapply Forall_impl; [exact Hall|]. by intros x Hx.
Qed.

Lemma stands_for_fmap h elems ws :
  Forall2 (stands_for lo h) elems ws ->
  Forall (within lo h) elems /\ snapshot h <$> elems = ws.
Proof.
  induction 1 as [|a b elems ws [Ha <-] _ [IH1 <-]]; [done|].
  split; [by constructor|done].
Qed.

Lemma call_find_agrees h results w p q :
  inv lo h -> stands_for lo h results w ->
  (forall a b, stands_for lo h a b -> agrees eq (p a) (q b)) ->
  agrees (stands_for lo h) (call_find h results p) (JS.call_find w q).
Proof.
  intros Hwf [Hres <-] Hpq. destruct results as [| |b|n|s|l];
    try (by rewrite snapshot_primitive).
  destruct (snapshot_ref h l Hwf Hres) as (c & Hc & Hclosed & ->).
  simpl. rewrite Hc. destruct c as [elems|props]; simpl; [|done].
  apply array_find_agrees; [|done]. by apply stands_for_snapshots.
Qed.

Lemma array_mapi_from_agrees {A A' B B'} (R : A -> B -> Prop) (R' : A' -> B' -> Prop)
    (f : A -> nat -> res A') (g : B -> nat -> res B') i xs ys :
  Forall2 R xs ys ->
  (forall a b j, R a b -> agrees R' (f a j) (g b j)) ->
  agrees (Forall2 R') (JS.array_mapi_from f i xs) (JS.array_mapi_from g i ys).
Proof.
  intros Hall Hfg. revert i.
  induction Hall as [|a b xs ys Hab _ IH]; intros i; simpl; [constructor|].
  eapply agrees_bind; [by apply Hfg|]. intros y y' Hy.
  eapply agrees_bind; [apply IH|]. intros zs zs' Hzs.
  simpl. by constructor.
Qed.

(** *** Rules for computations on the store *)

Lemma run_agrees_ret {A B} (R : store -> A -> B -> Prop) h a b :
  inv lo h -> R h a b -> run_agrees lo R h (mret a) (Ok b).
Proof. intros Hwf HR. by split; [|split]. Qed.

Lemma run_agrees_bind {A A' B B'} (R : store -> A -> B -> Prop)
    (R' : store -> A' -> B' -> Prop) h (m : M A) (p : res B)
    (f : A -> M A') (g : B -> res B') :
  run_agrees lo R h m p ->
  (forall h' a b, h `prefix_of` h' -> inv lo h' -> R h' a b ->
     run_agrees lo R' h' (f a) (g b)) ->
  run_agrees lo R' h (m ≫= f) (p ≫= g).
Proof.
  unfold run_agrees, mbind, M_bind. intros (Hpre & Hwf & Hag) Hf.
  destruct (m h) as [h1 [a|e]], p as [b|e']; simpl in *; try done.
  destruct (Hf h1 a b Hpre Hwf Hag) as (Hpre' & Hwf' & Hag').
  split; [by etrans|done].
Qed.

Lemma run_agrees_read {A B} (R : store -> A -> B -> Prop) h
    (f : store -> res A) (p : res B) :
  inv lo h -> agrees (R h) (f h) p -> run_agrees lo R h (read f) p.
Proof. intros Hwf Hag. by split; [|split]. Qed.

Lemma run_agrees_alloc h c w :
  inv lo h -> Forall (within lo h) (cell_values c) -> snapshot_cell h c = w ->
  run_agrees lo (stands_for lo) h (alloc c) (Ok w).
Proof.
  intros Hinv Hc <-. unfold run_agrees, alloc. simpl.
  split; [by apply prefix_app_r|]. split; [by apply inv_alloc|].
  destruct Hinv as (Hwf & _ & Hlo). split; [split|].
  - simpl. lia.
  - unfold closed. rewrite length_app. simpl. lia.
  - rewrite snapshot_alloc; [by destruct c|done|].
    eapply Forall_impl; [exact Hc|]. apply within_closed.
Qed.

Lemma run_agrees_mapi (f : sval -> nat -> M sval) (g : value -> nat -> res value)
    h i elems ws :
  inv lo h -> Forall2 (stands_for lo h) elems ws ->
  (forall h' j a b, h `prefix_of` h' -> inv lo h' -> stands_for lo h' a b ->
     run_agrees lo (stands_for lo) h' (f a j) (g b j)) ->
  run_agrees lo (fun h' => Forall2 (stands_for lo h')) h
    (array_mapi_from f i elems) (JS.array_mapi_from g i ws).
Proof.
  intros Hwf Hall. revert ws h i Hwf Hall.
  induction elems as [|a elems IH]; intros ws h i Hwf Hall Hf;
    inversion Hall as [|? b ? ws' Hab Hrest]; subst; simpl.
  - by apply run_agrees_ret.
  - eapply run_agrees_bind; [by apply Hf|].
    intros h1 y y' Hpre1 Hwf1 Hy.
    eapply run_agrees_bind.
    + apply IH; [done| |].
      * eapply Forall2_impl; [exact Hrest|]. intros x x' Hx.
        by apply (stands_for_prefix h h1).
      * intros h' j x x' Hpre' Hwf' Hx. apply Hf; [by etrans|done..].
    + intros h2 ys ys' Hpre2 Hwf2 Hys. apply run_agrees_ret; [done|].
      constructor; [|done]. by apply (stands_for_prefix h1 h2).
Qed.

Lemma res_fmap_bind {A B} (f : A -> B) (r : res A) :
  f <$> r = r ≫= (fun a => Ok (f a)).
Proof. by destruct r. Qed.

Lemma run_agrees_throw {A B} (R : store -> A -> B -> Prop) h e :
  inv lo h -> run_agrees lo R h (fun h => (h, Throw e)) (Throw e).
Proof. intros Hwf. by split; [|split]. Qed.

Lemma run_agrees_call_mapi (f : sval -> nat -> M sval) (g : value -> nat -> res value)
    h v w :
  inv lo h -> stands_for lo h v w ->
  (forall h' j a b, h `prefix_of` h' -> inv lo h' -> stands_for lo h' a b ->
     run_agrees lo (stands_for lo) h' (f a j) (g b j)) ->
  run_agrees lo (stands_for lo) h (call_mapi v f) (JS.call_mapi w g).
Proof.
  intros Hwf [Hv <-] Hf. destruct v as [| |b|n|s|l];
    try (rewrite snapshot_primitive by done; by apply run_agrees_throw).
  destruct (snapshot_ref h l Hwf Hv) as (c & Hc & Hclosed & ->).
  destruct c as [elems|props]; simpl.
  - rewrite res_fmap_bind.
    assert (run_agrees lo (stands_for lo) h
              (vs ← array_mapi_from f 0 elems; alloc (CArr vs))
              (JS.array_mapi g (snapshot h <$> elems) ≫= (fun vs => Ok (VArr vs))))
      as Hrun.
    { eapply run_agrees_bind.
      - apply run_agrees_mapi; [done| |done]. by apply stands_for_snapshots.
      - intros h' vs ws Hpre' Hwf' Hvs.
        destruct (stands_for_fmap h' vs ws Hvs) as [Hcl <-].
        by apply run_agrees_alloc. }
    unfold run_agrees, call_mapi in *. by rewrite Hc.
  - unfold run_agrees, call_mapi. rewrite Hc. by split; [|split].
Qed.

Lemma run_agrees_optional_map (f : sval -> M sval) (g : value -> value) h v w :
  inv lo h -> stands_for lo h v w ->
  (forall h' a b, h `prefix_of` h' -> inv lo h' -> stands_for lo h' a b ->
     run_agrees lo (stands_for lo) h' (f a) (Ok (g b))) ->
  run_agrees lo (stands_for lo) h (optional_map v f) (JS.optional_map w g).
Proof.
  intros Hwf Hv Hf. unfold optional_map, JS.optional_map.
  rewrite (nullish_agrees h v w) by done. destruct (nullish v).
  - apply run_agrees_ret; [done|]. by apply (stands_for_primitive h SUndefined).
  - apply run_agrees_call_mapi; [done..|]. intros h' j a b. by apply Hf.
Qed.

Lemma wrap_agrees h name a b :
  inv lo h -> stands_for lo h a b ->
  run_agrees lo (stands_for lo) h
    (arr ← alloc (CArr [a]); alloc (CObj [(name, arr)]))
    (Ok (VObj [(name, VArr [b])])).
Proof.
  intros Hwf [Ha <-].
  change (Ok (VObj [(name, VArr [snapshot h a])]))
    with (Ok (VArr [snapshot h a]) ≫= (fun warr => Ok (VObj [(name, warr)]))).
  eapply run_agrees_bind.
  - apply run_agrees_alloc; [done| |done]. by constructor.
  - intros h' arr warr Hpre' Hwf' [Harr <-].
    apply run_agrees_alloc; [done| |done]. by constructor.
Qed.

(** *** Object spread *)

Lemma own_props_agrees h v w :
  inv lo h -> stands_for lo h v w ->
  props_for lo h (own_props h v) (JS.own_props w).
Proof.
  intros Hwf [Hv <-]. destruct v as [| |b|n|s|l];
    try (by rewrite snapshot_primitive).
  - rewrite snapshot_primitive by done. simpl. split.
    + apply Forall_fmap, Forall_lookup. intros i [k x] Hi.
      apply list_lookup_imap_Some in Hi as (c & _ & [= -> ->]). done.
    + rewrite fmap_imap. apply imap_ext. intros i c _. simpl.
      by rewrite snapshot_primitive.
  - destruct (snapshot_ref h l Hwf Hv) as (c & Hc & Hclosed & ->).
    simpl. rewrite Hc. destruct c as [elems|props]; simpl in *.
    + split.
      * apply Forall_fmap, Forall_lookup. intros i [k x] Hi.
        apply list_lookup_imap_Some in Hi as (y & Hy & [= -> ->]). simpl.
        by eapply Forall_lookup_1.
      * by rewrite fmap_imap, imap_fmap.
    + by split.
Qed.

Lemma obj_set_agrees h props wprops k x wx :
  props_for lo h props wprops -> stands_for lo h x wx ->
  props_for lo h (obj_set k x props) (obj_set k wx wprops).
Proof.
  intros [Hcl <-] [Hx <-]. induction props as [|[k' y] props IH]; simpl in *.
  - split; [by constructor|done].
  - inversion Hcl as [|? ? Hy Hrest]; subst.
    destruct (String.eqb k' k); simpl.
    + split; [by constructor|done].
    + destruct (IH Hrest) as [IH1 IH2]. split; [by constructor|].
      simpl. f_equal. exact IH2.
Qed.

Lemma obj_spread_agrees h target wtarget src wsrc :
  inv lo h -> props_for lo h target wtarget -> stands_for lo h src wsrc ->
  props_for lo h (obj_spread h target src) (JS.obj_spread wtarget wsrc).
Proof.
  intros Hwf Htarget Hsrc. unfold obj_spread, JS.obj_spread.
  destruct (own_props_agrees h src wsrc Hwf Hsrc) as [Hcl <-].
  revert target wtarget Htarget.
  induction (own_props h src) as [|[k x] props IH]; intros target wtarget Htarget;
    simpl in *; [done|].
  inversion Hcl as [|? ? Hx Hrest]; subst.
  apply IH; [done|]. by apply obj_set_agrees.
Qed.

(** *** The two callbacks *)

Lemma optional_get_agrees h v w name :
  inv lo h -> stands_for lo h v w ->
  agrees (stands_for lo h) (optional_get h v name) (JS.optional_get w name).
Proof.
  intros Hwf Hv. unfold optional_get, JS.optional_get.
  rewrite (nullish_agrees h v w) by done. destruct (nullish v).
  - by apply (stands_for_primitive h SUndefined).
  - by apply get_prop_agrees.
Qed.

Lemma combine_agrees h edges wedges n wn index :
  inv lo h -> stands_for lo h edges wedges -> stands_for lo h n wn ->
  run_agrees lo (stands_for lo) h
    (n_nodes ← read (fun h => get_prop h n "nodes");
     edge ← read (fun h => get_index h edges index);
     props ← read (fun h => Ok (obj_spread h [("nodes", n_nodes)] edge));
     alloc (CObj props))
    (n_nodes ← JS.get_prop wn "nodes";
     edge ← JS.get_index wedges index;
     Ok (VObj (JS.obj_spread [("nodes", n_nodes)] edge))).
Proof.
  intros Hwf Hedges Hn.
  eapply run_agrees_bind.
  { apply run_agrees_read; [done|]. by apply get_prop_agrees. }
  intros h1 n_nodes wn_nodes Hpre1 Hwf1 Hn_nodes.
  eapply run_agrees_bind.
  { apply run_agrees_read; [done|]. apply get_index_agrees; [done|].
    by apply (stands_for_prefix h h1). }
  intros h2 edge wedge Hpre2 Hwf2 Hedge.
  change (Ok (VObj (JS.obj_spread [("nodes", wn_nodes)] wedge)))
    with (Ok (JS.obj_spread [("nodes", wn_nodes)] wedge)
            ≫= (fun wprops => Ok (VObj wprops))).
  eapply (run_agrees_bind (props_for lo)).
  { apply run_agrees_read; [done|]. simpl.
    apply obj_spread_agrees; [done| |done].
    destruct (stands_for_prefix h1 h2 _ _ Hwf1 Hpre2 Hn_nodes) as [Hc <-].
    split; [|done]. simpl. constructor; [exact Hc|constructor]. }
  intros h3 props wprops Hpre3 Hwf3 [Hcl <-].
  by apply run_agrees_alloc.
Qed.

Lemma resultTransformer_agrees h result w :
  inv lo h -> stands_for lo h result w ->
  run_agrees lo (stands_for lo) h (resultTransformer result) (Batch.resultTransformer w).
Proof.
  intros Hwf Hresult. unfold resultTransformer, Batch.resultTransformer.
  eapply run_agrees_bind.
  { apply run_agrees_read; [done|]. by apply optional_get_agrees. }
  intros h1 e we Hpre1 Hwf1 He.
  eapply run_agrees_bind.
  { apply run_agrees_optional_map; [done..|].
    intros h' a b _ Hwf' Hab. by apply wrap_agrees. }
  intros h2 edges wedges Hpre2 Hwf2 Hedges.
  assert (h `prefix_of` h2) as Hpre02 by (by etrans).
  eapply run_agrees_bind.
  { apply run_agrees_read; [done|]. apply optional_get_agrees; [done|].
    by apply (stands_for_prefix h h2). }
  intros h3 n wn Hpre3 Hwf3 Hn.
  eapply run_agrees_bind.
  { apply run_agrees_optional_map; [done..|].
    intros h' a b _ Hwf' Hab. by apply wrap_agrees. }
  intros h4 nodes wnodes Hpre4 Hwf4 Hnodes.
  assert (stands_for lo h4 edges wedges) as Hedges4.
  { apply (stands_for_prefix h2 h4); [done|by etrans|done]. }
  rewrite (truthy_agrees h4 nodes wnodes), (truthy_agrees h4 edges wedges) by done.
  destruct (truthy nodes && truthy edges).
  - apply run_agrees_call_mapi; [done..|].
    intros h' j a b Hpre' Hwf' Hab. apply combine_agrees; [done| |done].
    by apply (stands_for_prefix h4 h').
  - apply run_agrees_ret; [done|]. by destruct (truthy nodes).
Qed.

Lemma valuesFromResults_agrees h results w keys wkeys :
  inv lo h -> stands_for lo h results w ->
  Forall2 (key_for lo h) keys wkeys ->
  run_agrees lo (stands_for lo) h (valuesFromResults results keys)
    (VArr <$> Batch.valuesFromResults w wkeys).
Proof.
  intros Hwf Hresults Hkeys. unfold valuesFromResults, Batch.valuesFromResults.
  rewrite res_fmap_bind.
  eapply (run_agrees_bind (fun h' => Forall2 (stands_for lo h'))).
  - apply run_agrees_read; [done|].
    unfold array_map, array_mapi.
    eapply array_mapi_from_agrees; [exact Hkeys|].
    intros key wkey _ Hkey. apply call_find_agrees; [done..|].
    intros a b Hab. by apply matches_key_agrees.
  - intros h' vs ws Hpre' Hwf' Hvs.
    destruct (stands_for_fmap h' vs ws Hvs) as [Hcl <-].
    by apply run_agrees_alloc.
Qed.

Lemma keys_for h keys :
  Forall (below lo) keys -> Forall2 (key_for lo h) keys (snapshot h <$> keys).
Proof.
  intros Hkeys. apply Forall2_fmap_r, Forall_Forall2_diag.
  eapply Forall_impl; [exact Hkeys|]. by intros k Hk.
Qed.

Lemma batch_values_agrees h response w keys :
  inv lo h -> stands_for lo h response w -> Forall (below lo) keys ->
  run_agrees lo (stands_for lo) h (batch_values response keys)
    (VArr <$> Batch.batch_values w (snapshot h <$> keys)).
Proof.
  intros Hwf Hresponse Hkeys. unfold batch_values, Batch.batch_values.
  assert (forall (r : res value) (k : value -> res (list value)),
            VArr <$> (r ≫= k) = r ≫= (fun x => VArr <$> k x)) as ->
    by (by intros [x|e] k).
  eapply run_agrees_bind; [by apply resultTransformer_agrees|].
  intros h' results wresults Hpre' Hwf' Hresults.
  apply valuesFromResults_agrees; [done..|].
  eapply Forall2_impl; [by apply keys_for|].
  intros k wk Hk. by apply (key_for_prefix h h').
Qed.

Lemma agrees_snapshot h (r : res sval) (p : res value) :
  agrees (stands_for lo h) r p -> snapshot h <$> r = p.
Proof. destruct r, p; simpl; try done; [by intros [_ <-]|by intros <-]. Qed.

End Region.

End StoreFacts.

Import StoreFacts.

(** C9.  Mapping the same response with the same keys twice, the second
    time in the store the first call left behind, gives the same outcome
    both times (the same slots, or the same error): each call only adds
    cells to the store, leaves the response as it was, and its outcome is
    the one the store-free [batch_values] computes from the response and
    the keys.  The response is a document of its own: its cells, from
    [lo] on, refer to nothing before [lo], where the keys that are objects
    live. *)
Theorem batch_values_repeatable (lo : nat)
    (h : Store.store) (response : Store.sval) (keys : list Store.sval) :
  inv lo h -> within lo h response -> Forall (below lo) keys ->
  let first := Store.batch_values response keys h in
  let second := Store.batch_values response keys first.1 in
  h `prefix_of` first.1 /\
  first.1 `prefix_of` second.1 /\
  Store.snapshot first.1 response = Store.snapshot h response /\
  Store.snapshot first.1 <$> keys = Store.snapshot h <$> keys /\
  Store.snapshot second.1 <$> second.2 = Store.snapshot first.1 <$> first.2 /\
  Store.snapshot first.1 <$> first.2 =
    VArr <$> batch_values (Store.snapshot h response) (Store.snapshot h <$> keys).
Proof.
  intros Hinv Hresponse Hkeys first second.
  assert (stands_for lo h response (Store.snapshot h response)) as Hstands by done.
  destruct (batch_values_agrees lo h response _ keys Hinv Hstands Hkeys)
    as (Hpre1 & Hinv1 & Hag1).
  fold first in Hpre1, Hinv1, Hag1.
  pose proof (stands_for_prefix lo h first.1 _ _ Hinv Hpre1 Hstands) as Hstands1.
  destruct (batch_values_agrees lo first.1 response _ keys Hinv1 Hstands1 Hkeys)
    as (Hpre2 & Hinv2 & Hag2).
  fold second in Hpre2, Hinv2, Hag2.
  apply agrees_snapshot in Hag1, Hag2.
  assert (Store.snapshot first.1 <$> keys = Store.snapshot h <$> keys) as Hsame.
  { apply Forall_fmap_ext. eapply Forall_impl; [exact Hkeys|]. simpl.
    intros k Hk. apply snapshot_prefix; [by destruct Hinv|done|].
    eapply below_le; [exact Hk|]. by destruct Hinv as (_ & _ & ?). }
  split; [done|]. split; [done|]. split.
  { destruct Hresponse, Hinv. by apply snapshot_prefix. }
  split; [done|]. split; [|done]. rewrite Hag2, Hag1. by rewrite Hsame.
Qed.

Lemma batch_values_repeatable_witness :
  let first := Store.batch_values sample_root sample_keys sample_store in
  let second := Store.batch_values sample_root sample_keys first.1 in
  sample_store `prefix_of` first.1 /\
  first.1 `prefix_of` second.1 /\
  Store.snapshot first.1 sample_root = Store.snapshot sample_store sample_root /\
  Store.snapshot first.1 <$> sample_keys = Store.snapshot sample_store <$> sample_keys /\
  Store.snapshot second.1 <$> second.2 = Store.snapshot first.1 <$> first.2 /\
  Store.snapshot first.1 <$> first.2 =
    VArr <$> batch_values (Store.snapshot sample_store sample_root)
                          (Store.snapshot sample_store <$> sample_keys).
Proof.
  apply (batch_values_repeatable 1 sample_store sample_root sample_keys).
  - apply inv_check. reflexivity.
  - split; simpl; unfold closed; simpl; lia.
  - repeat constructor.
Defined.

Example batch_values_twice :
  let first := Store.batch_values sample_root sample_keys sample_store in
  let second := Store.batch_values sample_root sample_keys first.1 in
  first.2 = Ok (Store.SRef 23) /\ second.2 = Ok (Store.SRef 37) /\
  Store.snapshot first.1 sample_root = sample_response /\
  Store.snapshot second.1 <$> second.2 =
    VArr <$> batch_values sample_response [VStr "01"; VArr [VNum 6]; VStr "02"].
Proof. repeat split. Qed.

(** ** Further statements about [resultTransformer] *)

Lemma optional_get_field_of (result : value) (name : string) :
  optional_get result name = Ok (field_of result name).
Proof.
  unfold field_of, optional_get. destruct (nullish result) eqn:Hnull; [done|].
  by destruct result.
Qed.

Lemma optional_map_unmappable (v : value) (f : value -> value) :
  mappable v = false -> optional_map v f = Throw TypeError.
Proof. by destruct v. Qed.

Lemma optional_map_nullish (v : value) (f : value -> value) :
  nullish v = true -> optional_map v f = Ok VUndefined.
Proof. unfold optional_map. by intros ->. Qed.

Lemma combine_both (es ns : list value) :
  call_mapi (VArr ((fun a => VObj [("nodes", VArr [a])]) <$> ns))
    (fun n index =>
       n_nodes ← get_prop n "nodes";
       edge ← get_index (VArr ((fun a => VObj [("edges", VArr [a])]) <$> es)) index;
       Ok (VObj (obj_spread [("nodes", n_nodes)] edge)))
  = Ok (VArr (imap (group_at es) ns)).
Proof.
  unfold call_mapi, array_mapi.
  match goal with
  | |- VArr <$> ?m = _ => assert (m = Ok (imap (group_at es) ns)) as ->; [|done]
  end.
  apply array_mapi_from_Ok. split.
  - by rewrite length_imap, length_fmap.
  - intros j x Hj. rewrite list_lookup_fmap in Hj.
    destruct (ns !! j) as [n|] eqn:Hn; [|done]. injection Hj as <-.
    exists (group_at es j n). split.
    + by rewrite list_lookup_imap, Hn.
    + simpl. rewrite list_lookup_fmap. unfold group_at.
      by destruct (es !! j).
Qed.

Lemma normal_form_body (e n : value) :
  (edges ← optional_map e (fun a => VObj [("edges", VArr [a])]);
   nodes ← optional_map n (fun a => VObj [("nodes", VArr [a])]);
   if truthy nodes && truthy edges then
     call_mapi nodes (fun n index =>
       n_nodes ← get_prop n "nodes";
       edge ← get_index edges index;
       Ok (VObj (obj_spread [("nodes", n_nodes)] edge)))
   else Ok (if truthy nodes then nodes else edges))
  = normal_form e n.
Proof.
  unfold normal_form.
  destruct e as [| |b|z|s|es|o], n as [| |b'|z'|s'|ns|o'];
    rewrite ?optional_map_array; try reflexivity.
  exact (combine_both es ns).
Qed.

Lemma resultTransformer_normal_form (result : value) :
  resultTransformer result
  = normal_form (field_of result "edges") (field_of result "nodes").
Proof.
  unfold resultTransformer.
  rewrite (optional_get_field_of result "edges").
  rewrite (optional_get_field_of result "nodes").
  by rewrite <- normal_form_body.
Qed.

Lemma get_prop_field_of (result : value) (name : string) (v : value) :
  get_prop result name = Ok v -> field_of result name = v.
Proof.
  intros Hv. unfold field_of, optional_get.
  by rewrite (get_prop_Ok_not_nullish _ _ _ Hv), Hv.
Qed.

(** X1.  A response with one shape only is normalised to one group per
    entry, in order, each holding that entry under the shape's name. *)
Theorem resultTransformer_single_shape
    (result : value) (field : string) (xs : list value) (o : value) :
  field = "edges" \/ field = "nodes" ->
  get_prop result field = Ok (VArr xs) ->
  get_prop result (other_shape field) = Ok o ->
  nullish o = true ->
  resultTransformer result = Ok (VArr (single_shape field <$> xs)).
Proof.
  intros Hfield Hxs Ho Hnull. rewrite resultTransformer_normal_form.
  destruct Hfield as [-> | ->]; unfold other_shape in Ho; simpl in Ho;
    rewrite (get_prop_field_of _ _ _ Hxs), (get_prop_field_of _ _ _ Ho);
    unfold normal_form; by destruct o.
Qed.

Lemma resultTransformer_single_shape_witness :
  resultTransformer
    (VObj [("nodes", VArr [VStr "a"; VStr "b"]); ("edges", VNull)])
  = Ok (VArr (single_shape "nodes" <$> [VStr "a"; VStr "b"])).
Proof.
  apply (resultTransformer_single_shape
           (VObj [("nodes", VArr [VStr "a"; VStr "b"]); ("edges", VNull)])
           "nodes" [VStr "a"; VStr "b"] VNull).
  - by right.
  - reflexivity.
  - reflexivity.
  - reflexivity.
Defined.

(** X2.  With both shapes the groups follow the nodes: there are as many
    groups as nodes, node [i] is joined by edge [i] when there is one and
    stands alone otherwise, and edges beyond the last node are dropped. *)
Theorem resultTransformer_follows_nodes (result : value) (es ns : list value) :
  get_prop result "edges" = Ok (VArr es) ->
  get_prop result "nodes" = Ok (VArr ns) ->
  exists groups,
    resultTransformer result = Ok (VArr groups) /\
    length groups = length ns /\
    (forall i n e, ns !! i = Some n -> es !! i = Some e ->
       groups !! i = Some (both_shapes n e)) /\
    (forall i n, ns !! i = Some n -> es !! i = None ->
       groups !! i = Some (single_shape "nodes" n)) /\
    (forall i e, es !! i = Some e -> ns !! i = None -> groups !! i = None).
Proof.
  intros Hes Hns. exists (imap (group_at es) ns).
  rewrite resultTransformer_normal_form.
  rewrite (get_prop_field_of _ _ _ Hes), (get_prop_field_of _ _ _ Hns).
  split; [done|]. split; [by rewrite length_imap|].
  split; [|split].
  - intros i n e Hn He. rewrite list_lookup_imap, Hn. simpl.
    unfold group_at. by rewrite He.
  - intros i n Hn He. rewrite list_lookup_imap, Hn. simpl.
    unfold group_at. by rewrite He.
  - intros i e _ Hn. by rewrite list_lookup_imap, Hn.
Qed.

Lemma resultTransformer_follows_nodes_witness :
  exists groups,
    resultTransformer
      (VObj [("edges", VArr [VStr "e0"; VStr "e1"; VStr "e2"]);
             ("nodes", VArr [VStr "n0"; VStr "n1"])])
    = Ok (VArr groups) /\
    length groups = 2%nat /\
    (forall i n e, [VStr "n0"; VStr "n1"] !! i = Some n ->
       [VStr "e0"; VStr "e1"; VStr "e2"] !! i = Some e ->
       groups !! i = Some (both_shapes n e)) /\
    (forall i n, [VStr "n0"; VStr "n1"] !! i = Some n ->
       [VStr "e0"; VStr "e1"; VStr "e2"] !! i = None ->
       groups !! i = Some (single_shape "nodes" n)) /\
    (forall i e, [VStr "e0"; VStr "e1"; VStr "e2"] !! i = Some e ->
       [VStr "n0"; VStr "n1"] !! i = None -> groups !! i = None).
Proof.
  apply (resultTransformer_follows_nodes
           (VObj [("edges", VArr [VStr "e0"; VStr "e1"; VStr "e2"]);
                  ("nodes", VArr [VStr "n0"; VStr "n1"])])
           [VStr "e0"; VStr "e1"; VStr "e2"] [VStr "n0"; VStr "n1"]);
    reflexivity.
Defined.

(** X3.  [resultTransformer] throws exactly when [edges] or [nodes] is
    there without being an array, and then it is a [TypeError]; with both
    absent it returns [undefined]. *)
Theorem resultTransformer_throws (result : value) :
  is_throw (resultTransformer result)
    = negb (mappable (field_of result "edges") && mappable (field_of result "nodes")) /\
  (forall e, resultTransformer result = Throw e -> e = TypeError) /\
  (nullish (field_of result "edges") = true ->
   nullish (field_of result "nodes") = true ->
   resultTransformer result = Ok VUndefined).
Proof.
  rewrite resultTransformer_normal_form. unfold normal_form.
  destruct (mappable (field_of result "edges") && mappable (field_of result "nodes"))
    eqn:Hm.
  - split; [|split].
    + by destruct (field_of result "nodes"), (field_of result "edges").
    + intros e. by destruct (field_of result "nodes"), (field_of result "edges").
    + by destruct (field_of result "nodes"), (field_of result "edges").
  - split; [done|]. split; [by intros e [= <-]|].
    intros He Hn. by destruct (field_of result "nodes"), (field_of result "edges").
Qed.

Lemma resultTransformer_throws_witness :
  resultTransformer (VObj [("totalCount", VNum 0)]) = Ok VUndefined.
Proof.
  destruct (resultTransformer_throws (VObj [("totalCount", VNum 0)]))
    as (_ & _ & Habsent).
  apply Habsent; reflexivity.
Defined.

(** ** Further statements about [valuesFromResults] *)

Section MapFacts.
Context {A B : Type}.
Implicit Types (g : A -> res B).

Lemma array_map_from_index g i j elems :
  array_mapi_from (fun a _ => g a) i elems = array_mapi_from (fun a _ => g a) j elems.
Proof.
  revert i j. induction elems as [|x rest IH]; intros i j; simpl; [done|].
  by rewrite (IH (S i) (S j)).
Qed.

Lemma array_map_from_app g i j l1 l2 :
  array_mapi_from (fun a _ => g a) i (l1 ++ l2)
  = (vs1 ← array_mapi_from (fun a _ => g a) i l1;
     vs2 ← array_mapi_from (fun a _ => g a) j l2;
     Ok (vs1 ++ vs2)).
Proof.
  revert i. induction l1 as [|x l1 IH]; intros i; simpl.
  - rewrite (array_map_from_index g i j).
    by destruct (array_mapi_from (fun a _ => g a) j l2).
  - destruct (g x) as [y|e]; simpl; [|done].
    rewrite (IH (S i)).
    destruct (array_mapi_from (fun a _ => g a) (S i) l1) as [ys|e]; simpl; [|done].
    by destruct (array_mapi_from (fun a _ => g a) j l2).
Qed.

Lemma array_map_app g l1 l2 :
  array_map g (l1 ++ l2)
  = (vs1 ← array_map g l1; vs2 ← array_map g l2; Ok (vs1 ++ vs2)).
Proof. apply array_map_from_app. Qed.

Lemma array_map_throw_inv g elems e :
  array_map g elems = Throw e ->
  exists l1 x l2 vs1,
    elems = l1 ++ x :: l2 /\ array_map g l1 = Ok vs1 /\ g x = Throw e.
Proof.
  unfold array_map, array_mapi.
  induction elems as [|x rest IH]; simpl; [done|].
  destruct (g x) as [y|e'] eqn:Hx; simpl.
  - rewrite (array_map_from_index g 1 0).
    destruct (array_mapi_from (fun a _ => g a) 0 rest) as [ys|e'] eqn:Hrest;
      simpl; [done|].
    intros [= ->].
    destruct (IH eq_refl) as (l1 & x' & l2 & vs1 & -> & Hl1 & Hx').
    exists (x :: l1), x', l2, (y :: vs1). split; [done|]. split; [|done].
    simpl. rewrite Hx. simpl.
    by rewrite (array_map_from_index g 1 0), Hl1.
  - intros [= ->]. by exists [], x, rest, [].
Qed.

End MapFacts.

Lemma array_find_throw_inv (p : value -> res bool) (elems : list value) (e : exn) :
  array_find p elems = Throw e ->
  exists pre x post,
    elems = pre ++ x :: post /\
    Forall (fun y => p y = Ok false) pre /\ p x = Throw e.
Proof.
  induction elems as [|x rest IH]; simpl; [done|].
  destruct (p x) as [[|]|e'] eqn:Hx; simpl; [done| |].
  - intros Hrest. destruct (IH Hrest) as (pre & x' & post & -> & Hpre & Hx').
    exists (x :: pre), x', post. split; [done|]. split; [by constructor|done].
  - intros [= ->]. by exists [], x, rest.
Qed.

(** X4.  Mapping a window of keys is mapping its parts, in order: the
    slots of [ks1 ++ ks2] are those of [ks1] followed by those of [ks2],
    and the window fails with the error of the first part that fails. *)
Theorem valuesFromResults_app (results : value) (ks1 ks2 : list value) :
  valuesFromResults results (ks1 ++ ks2)
  = (vs1 ← valuesFromResults results ks1;
     vs2 ← valuesFromResults results ks2;
     Ok (vs1 ++ vs2)).
Proof. apply array_map_app. Qed.

(** X5.  [valuesFromResults] throws [e] exactly when the search for one of
    the keys reaches a group on which the predicate throws [e]. *)
Theorem valuesFromResults_throws_iff (results keys : list value) (e : exn) :
  valuesFromResults (VArr results) keys = Throw e <->
  exists key g, examines results keys key g /\ matches_key key g = Throw e.
Proof.
  split.
  - intros Hthrow. apply array_map_throw_inv in Hthrow
      as (ks1 & key & ks2 & vs1 & -> & Hks1 & Hkey).
    simpl in Hkey. apply array_find_throw_inv in Hkey
      as (pre & g & post & -> & Hpre & Hg).
    exists key, g. split; [|done].
    by exists ks1, ks2, pre, post, vs1.
  - intros (key & g & Hex & Hg). by apply (examined_throw results keys key g).
Qed.

Lemma get_prop_throw (v : value) (name : string) (e : exn) :
  get_prop v name = Throw e -> e = TypeError.
Proof. destruct v; simpl; congruence. Qed.

Lemma get_index_throw (v : value) (i : nat) (e : exn) :
  get_index v i = Throw e -> e = TypeError.
Proof. destruct v; simpl; congruence. Qed.

Lemma edge_key_throw (edges : value) (e : exn) :
  edge_key edges = Throw e -> e = TypeError.
Proof.
  unfold edge_key.
  destruct (get_index edges 0) as [e0|e'] eqn:H0; simpl;
    [|intros [= <-]; by eapply get_index_throw].
  destruct (get_prop e0 "node") as [node|e'] eqn:Hnode; simpl;
    [|intros [= <-]; by eapply get_prop_throw].
  apply get_prop_throw.
Qed.

Lemma node_key_throw (nodes : value) (e : exn) :
  node_key nodes = Throw e -> e = TypeError.
Proof.
  unfold node_key.
  destruct (get_index nodes 0) as [n0|e'] eqn:H0; simpl;
    [|intros [= <-]; by eapply get_index_throw].
  apply get_prop_throw.
Qed.

Lemma group_key_throw (g : value) (e : exn) :
  group_key g = Throw e -> search_error e.
Proof.
  unfold group_key, search_error.
  destruct (get_prop g "edges") as [edges|e'] eqn:Hedges; simpl;
    [|intros [= <-]; left; by eapply get_prop_throw].
  destruct (truthy edges).
  - destruct (edge_key edges) as [k|e'] eqn:Hk; simpl;
      [|intros [= <-]; left; by eapply edge_key_throw].
    destruct (truthy k); [done|]. intros [= <-]. by right; left.
  - destruct (get_prop g "nodes") as [nodes|e'] eqn:Hnodes; simpl;
      [|intros [= <-]; left; by eapply get_prop_throw].
    destruct (truthy nodes); [|intros [= <-]; by right; right; right].
    destruct (node_key nodes) as [k|e'] eqn:Hk; simpl;
      [|intros [= <-]; left; by eapply node_key_throw].
    destruct (truthy k); [done|]. intros [= <-]. by right; right; left.
Qed.

Lemma matches_key_throw (key g : value) (e : exn) :
  matches_key key g = Throw e -> group_key g = Throw e.
Proof.
  rewrite matches_key_group_key. destruct (group_key g); simpl; [done|].
  by intros [= ->].
Qed.

(** X6.  Whatever it is given, [valuesFromResults] ends in no other error
    than a [TypeError] or one of its own three messages. *)
Theorem valuesFromResults_errors (results : value) (keys : list value) (e : exn) :
  valuesFromResults results keys = Throw e -> search_error e.
Proof.
  intros Hthrow. apply array_map_throw_inv in Hthrow
    as (ks1 & key & ks2 & vs1 & _ & _ & Hkey).
  destruct results as [| |b|z|s|elems|o]; simpl in Hkey;
    try (injection Hkey as <-; by left).
  apply array_find_throw_inv in Hkey as (pre & g & post & _ & _ & Hg).
  by eapply group_key_throw, matches_key_throw.
Qed.

Lemma valuesFromResults_errors_witness :
  search_error (Error missing_key_edges).
Proof.
  apply (valuesFromResults_errors
           (VArr [state_record "06"; unkeyed_record]) [VStr "06"; VStr "02"]).
  reflexivity.
Defined.

Lemma array_find_found_app (p : value -> res bool) (elems extra : list value) (v : value) :
  array_find p elems = Ok v -> v <> VUndefined ->
  array_find p (elems ++ extra) = Ok v.
Proof.
  induction elems as [|x rest IH]; simpl.
  - by intros [= <-] Hv.
  - destruct (p x) as [[|]|e]; simpl; [done| |done]. apply IH.
Qed.

(** X7.  The first match wins for good: groups added at the end of the
    response, whatever they are, leave every slot that found its group
    as it is; only empty slots can change. *)
Theorem valuesFromResults_more_groups (results extra keys vs : list value) :
  valuesFromResults (VArr results) keys = Ok vs ->
  (Forall (fun v => v <> VUndefined) vs ->
   valuesFromResults (VArr (results ++ extra)) keys = Ok vs) /\
  (forall vs', valuesFromResults (VArr (results ++ extra)) keys = Ok vs' ->
     forall i v, vs !! i = Some v -> v <> VUndefined -> vs' !! i = Some v).
Proof.
  intros Hvs. apply array_map_Ok in Hvs. split.
  - intros Hfound. apply array_map_Ok.
    induction Hvs as [|key v keys' vs0 Hfind _ IH]; [constructor|].
    inversion Hfound as [|? ? Hv Hrest]; subst.
    constructor; [|by apply IH]. simpl in *. by apply array_find_found_app.
  - intros vs' Hvs' i v Hi Hv. apply array_map_Ok in Hvs'.
    destruct (Forall2_lookup_r _ _ _ _ _ Hvs Hi) as (key & Hkey & Hfind).
    destruct (Forall2_lookup_l _ _ _ _ _ Hvs' Hkey) as (v' & Hv' & Hfind').
    simpl in *. rewrite (array_find_found_app _ _ extra v Hfind Hv) in Hfind'.
    congruence.
Qed.

Lemma valuesFromResults_more_groups_witness :
  valuesFromResults (VArr ([state_record "06"] ++ [VNull; state_record "02"]))
    [VStr "06"; VStr "06"] = Ok [state_record "06"; state_record "06"].
Proof.
  destruct (valuesFromResults_more_groups
              [state_record "06"] [VNull; state_record "02"]
              [VStr "06"; VStr "06"] [state_record "06"; state_record "06"])
    as [Hall _].
  - reflexivity.
  - apply Hall. repeat constructor; discriminate.
Defined.

Lemma array_find_unmatched (p : value -> res bool) (elems : list value) (v : value) :
  array_find p elems = Ok v ->
  Forall (fun x => p x <> Ok true) elems ->
  Forall (fun x => p x = Ok false) elems.
Proof.
  induction elems as [|x rest IH]; simpl; [constructor|].
  intros Hfind Hnone. inversion Hnone as [|? ? Hx Hrest]; subst.
  destruct (p x) as [[|]|e] eqn:Hpx; simpl in *; [done| |done].
  constructor; [done|]. by apply IH.
Qed.

(** X8.  A key that no group answers makes its search read every group:
    with such a key in the window, [valuesFromResults] returns exactly
    when every group of the response carries its key. *)
Theorem unanswered_key_checks_all (results keys : list value) (key : value) :
  key ∈ keys ->
  Forall (fun g => is_match key g = false) results ->
  (exists vs, valuesFromResults (VArr results) keys = Ok vs) <->
  Forall carries_key results.
Proof.
  intros Hin Hnone. split.
  - intros [vs Hvs]. apply array_map_Ok in Hvs.
    apply list_elem_of_lookup in Hin as [i Hi].
    destruct (Forall2_lookup_l _ _ _ _ _ Hvs Hi) as (v & _ & Hfind).
    simpl in Hfind. apply array_find_unmatched in Hfind.
    + eapply Forall_impl; [exact Hfind|]. intros g Hg.
      exact (matches_key_Ok_carries key g false Hg).
    + eapply Forall_impl; [exact Hnone|]. intros g Hg Htrue.
      unfold is_match in Hg. by rewrite Htrue in Hg.
  - intros Hall. apply array_map_total. intros key'. by apply find_total.
Qed.

Lemma unanswered_key_checks_all_witness :
  (exists vs,
     valuesFromResults (VArr [state_record "06"; unkeyed_record])
       [VStr "06"; VStr "31"] = Ok vs) <->
  Forall carries_key [state_record "06"; unkeyed_record].
Proof.
  apply (unanswered_key_checks_all
           [state_record "06"; unkeyed_record] [VStr "06"; VStr "31"] (VStr "31")).
  - apply list_elem_of_lookup. by exists 1%nat.
  - repeat constructor.
Defined.

(** ** The two callbacks together *)

Lemma has_shape_single (field : string) (a : value) :
  field = "edges" \/ field = "nodes" -> has_shape (single_shape field a).
Proof.
  intros [-> | ->].
  - exists (VArr [a]). split; [done|]. by left.
  - exists VUndefined. split; [done|]. right. by exists (VArr [a]).
Qed.

Lemma has_shape_both (n e : value) : has_shape (both_shapes n e).
Proof. exists (VArr [e]). split; [done|]. by left. Qed.

Lemma normal_form_shapes (e n results : value) :
  normal_form e n = Ok results ->
  results = VUndefined \/
  exists groups, results = VArr groups /\ Forall has_shape groups.
Proof.
  unfold normal_form. destruct (mappable e && mappable n); [|done].
  destruct n as [| |b|z|s|ns|o], e as [| |b'|z'|s'|es|o']; intros [= <-];
    try (by left); right; eexists; (split; [done|]);
    try (apply Forall_fmap, Forall_true; intros a; apply has_shape_single;
         first [by left | by right]).
  apply Forall_lookup. intros i g Hg.
  apply list_lookup_imap_Some in Hg as (a & _ & ->). unfold group_at.
  destruct (es !! i); [apply has_shape_both|apply has_shape_single; by right].
Qed.

Lemma normal_form_throw (e n : value) (x : exn) :
  normal_form e n = Throw x -> x = TypeError.
Proof.
  unfold normal_form. destruct (mappable e && mappable n); [|by intros [= <-]].
  by destruct n, e.
Qed.

Lemma has_shape_no_shape_error (key g : value) :
  has_shape g -> matches_key key g <> Throw (Error missing_shape).
Proof.
  intros (edges & Hedges & Hshape) Hthrow.
  apply matches_key_throw in Hthrow.
  unfold group_key in Hthrow. rewrite Hedges in Hthrow. simpl in Hthrow.
  destruct (truthy edges) eqn:Htruthy.
  - destruct (edge_key edges) as [k|e] eqn:Hk; simpl in Hthrow.
    + by destruct (truthy k).
    + apply edge_key_throw in Hk. by subst e.
  - destruct Hshape as [|(nodes & Hnodes & Htn)]; [done|].
    rewrite Hnodes in Hthrow. simpl in Hthrow. rewrite Htn in Hthrow.
    destruct (node_key nodes) as [k|e] eqn:Hk; simpl in Hthrow.
    + by destruct (truthy k).
    + apply node_key_throw in Hk. by subst e.
Qed.

(** X9.  Every group [resultTransformer] builds has a shape, so through
    the two callbacks together the error [Query needs nodes or edges] is
    never thrown, whatever the response and the keys. *)
Theorem shape_error_unreachable (response : value) (keys : list value) :
  batch_values response keys <> Throw (Error missing_shape).
Proof.
  unfold batch_values. rewrite resultTransformer_normal_form.
  destruct (normal_form _ _) as [results|x] eqn:Hnf; simpl.
  - intros Hthrow. apply array_map_throw_inv in Hthrow
      as (ks1 & key & ks2 & vs1 & _ & _ & Hkey).
    destruct (normal_form_shapes _ _ _ Hnf) as [-> | (groups & -> & Hshapes)];
      [done|].
    simpl in Hkey. apply array_find_throw_inv in Hkey
      as (pre & g & post & -> & _ & Hg).
    apply Forall_app in Hshapes as [_ Hshapes].
    inversion Hshapes as [|? ? Hshape _]; subst.
    by apply (has_shape_no_shape_error key g).
  - apply normal_form_throw in Hnf. by subst x.
Qed.






Lemma paired_matches_key (key g g' : value) :
  paired g g' -> matches_key key g = matches_key key g'.
Proof. by intros (n & e & -> & ->). Qed.

Lemma paired_find (key : value) (l l' : list value) :
  Forall2 paired l l' ->
  fmap (M:=res) edges_of (array_find (matches_key key) l)
  = fmap (M:=res) edges_of (array_find (matches_key key) l').
Proof.
  induction 1 as [|g g' l l' Hg _ IH]; simpl; [done|].
  rewrite (paired_matches_key key g g' Hg).
  destruct (matches_key key g') as [[|]|e]; simpl; [|done..].
  by destruct Hg as (n & e & -> & ->).
Qed.

Lemma paired_groups (es ns : list value) :
  length es = length ns ->
  Forall2 paired (imap (group_at es) ns) (single_shape "edges" <$> es).
Proof.
  intros Hlen. apply Forall2_same_length_lookup. split.
  - by rewrite length_imap, length_fmap.
  - intros i g g' Hg Hg'.
    apply list_lookup_imap_Some in Hg as (n & Hn & ->).
    rewrite list_lookup_fmap in Hg'.
    destruct (es !! i) as [e|] eqn:He; [|done]. injection Hg' as <-.
    exists n, e. unfold group_at. by rewrite He.
Qed.

Lemma array_map_fmap_ext {A} (f : value -> value) (g g' : A -> res value)
    (elems : list A) :
  (forall x, fmap (M:=res) f (g x) = fmap (M:=res) f (g' x)) ->
  fmap (M:=res) (fmap (M:=list) f) (array_map g elems)
  = fmap (M:=res) (fmap (M:=list) f) (array_map g' elems).
Proof.
  intros Hgg. unfold array_map, array_mapi. generalize 0%nat.
  induction elems as [|x rest IH]; intros i; simpl; [done|].
  specialize (Hgg x). specialize (IH (S i)).
  destruct (g x) as [y|e], (g' x) as [y'|e']; simpl in *; try congruence.
  destruct (array_mapi_from (fun a _ => g a) (S i) rest) as [ys|e],
    (array_mapi_from (fun a _ => g' a) (S i) rest) as [ys'|e'];
    simpl in *; try done.
  injection Hgg as Hy. injection IH as Hys. rewrite Hy. do 2 f_equal. exact Hys.
Qed.

(** X11.  With as many nodes as edges, asking for the nodes as well does
    not change the correlation: each key gets the same edges (or the same
    empty slot, or the same error) as from the edges alone. *)
Theorem nodes_leave_correlation (both only : value) (es ns keys : list value) :
  get_prop both "edges" = Ok (VArr es) ->
  get_prop both "nodes" = Ok (VArr ns) ->
  length es = length ns ->
  get_prop only "edges" = Ok (VArr es) ->
  nullish (field_of only "nodes") = true ->
  fmap (M:=res) (fmap (M:=list) edges_of) (batch_values both keys)
  = fmap (M:=res) (fmap (M:=list) edges_of) (batch_values only keys).
Proof.
  intros Hes Hns Hlen Hes' Hnodes'. unfold batch_values.
  rewrite !resultTransformer_normal_form.
  rewrite (get_prop_field_of _ _ _ Hes), (get_prop_field_of _ _ _ Hns).
  rewrite (get_prop_field_of _ _ _ Hes').
  assert (normal_form (VArr es) (field_of only "nodes")
          = Ok (VArr (single_shape "edges" <$> es))) as ->.
  { unfold normal_form. by destruct (field_of only "nodes"). }
  simpl. apply array_map_fmap_ext. intros key. simpl.
  apply paired_find. by apply paired_groups.
Qed.

Lemma nodes_leave_correlation_witness :
  fmap (M:=res) (fmap (M:=list) edges_of)
    (batch_values
      (VObj [("edges", VArr [VObj [("node", VObj [("stateFipsCode", VStr "06")])]]);
             ("nodes", VArr [VObj [("stateName", VStr "California")]])])
      [VStr "06"; VStr "02"])
  = fmap (M:=res) (fmap (M:=list) edges_of)
    (batch_values
      (VObj [("edges", VArr [VObj [("node", VObj [("stateFipsCode", VStr "06")])]])])
      [VStr "06"; VStr "02"]).
Proof.
  apply (nodes_leave_correlation
           (VObj [("edges", VArr [VObj [("node", VObj [("stateFipsCode", VStr "06")])]]);
                  ("nodes", VArr [VObj [("stateName", VStr "California")]])])
           (VObj [("edges", VArr [VObj [("node", VObj [("stateFipsCode", VStr "06")])]])])
           [VObj [("node", VObj [("stateFipsCode", VStr "06")])]]
           [VObj [("stateName", VStr "California")]]
           [VStr "06"; VStr "02"]); reflexivity.
Defined.





(** ** Sharing in the store model *)



(** ** The gateway and the executor *)

Section GatewayFacts.
Context {ast : Type}.
Variable print : ast -> string.
Variable JSON_stringify : value -> string.
Variable fetch : http_request -> http_outcome.

Local Abbreviation call := (makeRemoteExecutor print JSON_stringify fetch).

(** X14.  An invocation sends at most one request, whatever the network
    answers; it sends none exactly when there is no context to read the
    credential from, and then it throws a [TypeError]. *)
Theorem executor_request_count (url : string) (doc : document ast)
    (variables context : value) :
  (length (call url doc variables context).1 <= 1)%nat /\
  ((call url doc variables context).1 = [] <-> nullish context = true) /\
  (nullish context = true ->
   call url doc variables context = ([], Throw TypeError)).
Proof.
  unfold makeRemoteExecutor. destruct context; simpl; repeat split; try done; lia.
Qed.

(** X15.  The context the gateway builds from a client request makes the
    executor forward the client's [authorization] header as the
    [Authorization] of its one request; a client that sent none is
    forwarded all the same, with [undefined] for the credential. *)
Theorem gateway_forwards_authorization (url : string) (doc : document ast)
    (variables req : value) (headers : list (string * value)) :
  get_prop req "headers" = Ok (VObj headers) ->
  exists context request,
    request_context req = Ok context /\
    (call url doc variables context).1 = [request] /\
    obj_lookup "Authorization" (req_headers request)
      = Some (default VUndefined (obj_lookup "authorization" headers)).
Proof.
  intros Hheaders. unfold request_context. rewrite Hheaders. simpl.
  eexists. eexists. split; [done|]. by split.
Qed.

End GatewayFacts.

Lemma executor_request_count_witness :
  makeRemoteExecutor (fun text : string => text) sample_stringify failing_backend
    vaccine_url (DocText "{ heartbeat }") VUndefined VUndefined
  = ([], Throw TypeError).
Proof.
  destruct (executor_request_count (fun text : string => text) sample_stringify
              failing_backend vaccine_url (DocText "{ heartbeat }")
              VUndefined VUndefined) as (_ & _ & Hnone).
  apply Hnone. reflexivity.
Defined.

Lemma gateway_forwards_authorization_witness :
  exists context request,
    request_context (client_request [("content-type", VStr "application/json")])
      = Ok context /\
    (makeRemoteExecutor (fun text : string => text) sample_stringify failing_backend
       vaccine_url (DocText "{ heartbeat }") VUndefined context).1 = [request] /\
    obj_lookup "Authorization" (req_headers request)
      = Some (default VUndefined
                (obj_lookup "authorization"
                   [("content-type", VStr "application/json")])).
Proof.
  apply (gateway_forwards_authorization (fun text : string => text)
           sample_stringify failing_backend vaccine_url (DocText "{ heartbeat }")
           VUndefined
           (client_request [("content-type", VStr "application/json")])
           [("content-type", VStr "application/json")]).
  reflexivity.
Defined.

Example argsFromKeys_reads_back :
  (filter ← get_prop (argsFromKeys (VArr [VStr "06"; VStr "01"; VStr "01"])) "filter";
   code ← get_prop filter "stateFipsCode";
   get_prop code "in")
  = Ok (VArr [VStr "06"; VStr "01"; VStr "01"]).
Proof. reflexivity. Qed.
